(** * Open Australian Legal Corpus creator: data model and normaliser

    A shallow embedding of [oalc_creator/helpers.py] and
    [oalc_creator/data.py], followed by the properties of the
    normaliser, the value types and the fan-out helpers. *)

From Stdlib Require Import String Ascii.
From Stdlib Require Import List Bool Arith NArith ZArith Lia.
From Stdlib Require Import Permutation Sorted.
From Equations Require Import Equations.
Import ListNotations.

Set Implicit Arguments.
Open Scope string_scope.
Open Scope list_scope.
Open Scope N_scope.

(** ** Python values *)

(** A Python [str] is a sequence of Unicode code points. *)
Definition pystr := list N.

(** [lit "abc"] is the [str] literal with the given ASCII characters.  Rocq
    string literals have no escape sequences, so [lit "\r\n"] is the
    four-character raw literal [r'\r\n'] of Python. *)
Definition lit (s : string) : pystr := map N_of_ascii (list_ascii_of_string s).

Definition LF : N := 10.
Definition CR : N := 13.
Definition TAB : N := 9.
Definition SPACE : N := 32.
Definition NBSP : N := 160.

Definition pystr_eqb (a b : pystr) : bool :=
  if list_eq_dec N.eq_dec a b then true else false.

(** Exceptions raised by the modelled code. *)
Inductive exn :=
| ValueError (msg : pystr)
| TypeError (msg : pystr).

Inductive result (A : Type) :=
| Ok (a : A)
| Raise (e : exn).
Arguments Ok {A} a.
Arguments Raise {A} e.

Definition bind {A B} (m : result A) (k : A -> result B) : result B :=
  match m with
  | Ok a => k a
  | Raise e => Raise e
  end.

Notation "x <- m ;; k" := (bind m (fun x => k))
  (at level 61, m at next level, right associativity).

(** ** Character classes *)

(** The characters for which [str.isspace] holds; [\s] of a [str] pattern and
    [str.split()] use the same table. *)
Definition is_space (c : N) : bool :=
  ((9 <=? c) && (c <=? 13)) || ((28 <=? c) && (c <=? 32))
  || (c =? 133) || (c =? 160) || (c =? 5760)
  || ((8192 <=? c) && (c <=? 8202))
  || (c =? 8232) || (c =? 8233) || (c =? 8239) || (c =? 8287) || (c =? 12288).

Definition is_newline (c : N) : bool := c =? LF.

(** The class [[ \t]]. *)
Definition is_space_or_tab (c : N) : bool := (c =? SPACE) || (c =? TAB).

Definition ascii_isdigit (c : N) : bool := (48 <=? c) && (c <=? 57).

Definition ascii_isalnum (c : N) : bool :=
  ascii_isdigit c || ((65 <=? c) && (c <=? 90)) || ((97 <=? c) && (c <=? 122)).

(** The Unicode character database beyond ASCII, and the character-reference
    substitution of [html.unescape], are data of the Python runtime. *)
Class Runtime := {
  uni_isalnum : N -> bool;
  uni_isdecimal : N -> bool;
  replace_charrefs : pystr -> pystr
}.

Section Classes.
Context `{Runtime}.

(** [\d] of a [str] pattern. *)
Definition is_decimal (c : N) : bool :=
  if c <? 128 then ascii_isdigit c else uni_isdecimal c.

(** [\w] of a [str] pattern. *)
Definition is_word (c : N) : bool :=
  if c <? 128 then ascii_isalnum c || (c =? 95) else uni_isalnum c.

(** [\W]. *)
Definition is_nonword (c : N) : bool := negb (is_word c).

(** [html.unescape]. *)
Definition html_unescape (s : pystr) : pystr :=
  if existsb (N.eqb 38) s then replace_charrefs s else s.
End Classes.

(** ** String methods *)

Fixpoint starts_with (p s : pystr) : bool :=
  match p, s with
  | [], _ => true
  | a :: p', b :: s' => (a =? b) && starts_with p' s'
  | _ :: _, [] => false
  end.

(** [s.replace(old, new)] for a non-empty [old]; [skip] counts the characters
    of a replaced occurrence still to be passed over. *)
Fixpoint replace_go (old new : pystr) (skip : nat) (s : pystr) : pystr :=
  match s with
  | [] => []
  | c :: s' =>
      match skip with
      | S k => replace_go old new k s'
      | 0%nat =>
          if starts_with old s
          then new ++ replace_go old new (length old - 1)%nat s'
          else c :: replace_go old new 0%nat s'
      end
  end.

Definition str_replace (old new s : pystr) : pystr := replace_go old new 0%nat s.

(** [s.split(sep)] for a non-empty [sep]. *)
Fixpoint split_go (sep : pystr) (skip : nat) (s : pystr) : list pystr :=
  match s with
  | [] => [[]]
  | c :: s' =>
      match skip with
      | S k => split_go sep k s'
      | 0%nat =>
          if starts_with sep s
          then [] :: split_go sep (length sep - 1)%nat s'
          else match split_go sep 0%nat s' with
               | p :: ps => (c :: p) :: ps
               | [] => [[c]]
               end
      end
  end.

Definition str_split (s sep : pystr) : list pystr := split_go sep 0%nat s.

(** [s.split()]: the maximal runs of non-whitespace characters. *)
Fixpoint str_split_ws (s : pystr) : list pystr :=
  match s with
  | [] => []
  | c :: s' =>
      if is_space c then str_split_ws s'
      else match s' with
           | [] => [[c]]
           | d :: _ =>
               if is_space d then [c] :: str_split_ws s'
               else match str_split_ws s' with
                    | w :: ws => (c :: w) :: ws
                    | [] => [[c]]
                    end
           end
  end.

(** [sep.join(parts)]. *)
Fixpoint str_join (sep : pystr) (parts : list pystr) : pystr :=
  match parts with
  | [] => []
  | [p] => p
  | p :: ps => p ++ sep ++ str_join sep ps
  end.

(** ** Regular expressions

    The fragment of [re] used by the normaliser: a pattern is a sequence of
    items, each a character class, a greedy repetition of a character class,
    a one-character look-around or an anchor. *)
Inductive atom :=
| One (p : N -> bool)
| Many0 (p : N -> bool)
| Many1 (p : N -> bool)
| Behind (p : N -> bool)
| Ahead (p : N -> bool)
| Caret
| Dollar.

Definition regex := list atom.

Definition chars (s : pystr) : regex := map (fun c => One (N.eqb c)) s.

(** The matcher keeps the text before the current position reversed in
    [before] and the rest in [s]; a match returns both after the matched
    text.  [adv] is the engine's must-advance flag: while it is set the match
    has consumed nothing and may not succeed. *)
Section Matcher.
Variable p : N -> bool.
Variable k : bool -> pystr -> pystr -> option (pystr * pystr).

(** Greedy repetition: consume as many characters as possible, and give
    them back one at a time while the continuation fails. *)
Fixpoint greedy (adv : bool) (before s : pystr) : option (pystr * pystr) :=
  match s with
  | c :: s' =>
      if p c then
        match greedy false (c :: before) s' with
        | Some r => Some r
        | None => k adv before s
        end
      else k adv before s
  | [] => k adv before s
  end.
End Matcher.

Fixpoint match_here (r : regex) (adv : bool) (before s : pystr)
  : option (pystr * pystr) :=
  match r with
  | [] => if adv then None else Some (before, s)
  | One p :: r' =>
      match s with
      | c :: s' => if p c then match_here r' false (c :: before) s' else None
      | [] => None
      end
  | Many0 p :: r' => greedy p (match_here r') adv before s
  | Many1 p :: r' =>
      match s with
      | c :: s' =>
          if p c then greedy p (match_here r') false (c :: before) s' else None
      | [] => None
      end
  | Behind p :: r' =>
      match before with
      | c :: _ => if p c then match_here r' adv before s else None
      | [] => None
      end
  | Ahead p :: r' =>
      match s with
      | c :: _ => if p c then match_here r' adv before s else None
      | [] => None
      end
  | Caret :: r' =>
      match before with
      | [] => match_here r' adv before s
      | _ :: _ => None
      end
  | Dollar :: r' =>
      match s with
      | [] => match_here r' adv before s
      | [c] => if c =? LF then match_here r' adv before s else None
      | _ => None
      end
  end.

(** The loop of [re.sub]: search from the current position for the leftmost
    match, copy the text passed over, emit the replacement and go on after the
    match; after an empty match the next match may not be empty at the same
    position. *)
Fixpoint sub_from (fuel : nat) (r : regex) (repl : pystr) (adv : bool)
    (before s : pystr) : pystr :=
  match fuel with
  | O => s
  | S fuel' =>
      match match_here r adv before s with
      | Some (before', s') =>
          repl ++ sub_from fuel' r repl (length s' =? length s)%nat before' s'
      | None =>
          match s with
          | [] => []
          | c :: s' => c :: sub_from fuel' r repl false (c :: before) s'
          end
      end
  end.

(** [re.sub(r, repl, s)]. *)
Definition re_sub (r : regex) (repl s : pystr) : pystr :=
  sub_from (2 * length s + 2)%nat r repl false [] s.

(** ** helpers.py *)

(** [warning] hands the message to the console of the [rich] package, which
    is not part of the sources.  The model returns the messages handed over:
    it describes the runs in which the console prints them.  A message with
    console markup that [rich] refuses, such as a closing tag without its
    opening tag, makes the call raise instead. *)
Definition warning (message : pystr) : list pystr := [message].

Definition clean_text (text : pystr) : pystr :=
  (* Replace non-breaking spaces with regular spaces. *)
  let text := str_replace [NBSP] [SPACE] text in
  (* text.replace(r'\r\n', '\n') *)
  let text := str_replace (lit "\r\n") [LF] text in
  (* re.sub(r'(?<=\n)\s*(?=\n)', '\n', text) *)
  let text := re_sub [Behind is_newline; Many0 is_space; Ahead is_newline] [LF] text in
  (* re.sub(r'^\s*\n', '', text) *)
  let text := re_sub [Caret; Many0 is_space; One is_newline] [] text in
  (* re.sub(r'\n\s*$', '', text) *)
  let text := re_sub [One is_newline; Many0 is_space; Dollar] [] text in
  (* re.sub(r'[ \t]+\n', '\n', text) *)
  let text := re_sub [Many1 is_space_or_tab; One is_newline] [LF] text in
  text.

(** A run of a generator: the values yielded, and the exception that ended
    it, if one did. *)
Definition run (A : Type) : Type := (list A * option exn)%type.

Definition yield {A} (x : A) (rest : run A) : run A := (x :: fst rest, snd rest).

(** [sys.maxsize], the largest index of the platform: [2^63 - 1] on a 64-bit
    build of the interpreter. *)
Class Platform := { sys_maxsize : Z }.

(** The check of [itertools.islice(iterator, stop)] on an integer stop: the
    stop is converted to an index, which fails for -1 and outside the range
    of indices, from [-sys.maxsize - 1] to [sys.maxsize]; a negative index
    is refused after that. *)
Definition islice_stop_error `{Platform} (stop : Z) : option exn :=
  if ((stop =? -1) || (stop <? - sys_maxsize - 1) || (sys_maxsize <? stop))%Z
  then Some (ValueError (lit "Stop argument for islice() must be None or an integer: 0 <= x <= sys.maxsize."))
  else if (stop <? 0)%Z
  then Some (ValueError (lit "Indices for islice() must be None or an integer: 0 <= x <= sys.maxsize."))
  else None.

(** [batch_generator]: each turn of the [for] loop takes [first] from the
    iterator and chains it with the next [batch_size - 1] items; the
    [ValueError] of [itertools.islice] for a stop that it refuses ends the
    generator before that turn yields. *)
Equations? batch_generator `{Platform} {A} (iterable : list A) (batch_size : Z)
  : run (list A) by wf (length iterable) lt :=
batch_generator [] _ := ([], None);
batch_generator (first :: iterator) batch_size :=
  match islice_stop_error (batch_size - 1) with
  | Some e => ([], Some e)
  | None =>
      yield (first :: firstn (Z.to_nat (batch_size - 1)) iterator)
            (batch_generator (skipn (Z.to_nat (batch_size - 1)) iterator) batch_size)
  end.
Proof.
  rewrite length_skipn. lia.
Qed.

(** [enumerate]. *)
Fixpoint enumerate_from {A} (i : nat) (l : list A) : list (nat * A) :=
  match l with
  | [] => []
  | x :: l' => (i, x) :: enumerate_from (S i) l'
  end.

Definition enumerate {A} (l : list A) : list (nat * A) := enumerate_from 0 l.

Section AliveGather.
Variable R : Type.

(** [<] on results.  Tuple comparison reaches it only between two tuples
    with the same index. *)
Variable R_lt : R -> R -> bool.

Definition tuple_lt (a b : nat * R) : bool :=
  if (fst a =? fst b)%nat then R_lt (snd a) (snd b) else (fst a <? fst b)%nat.

(** [sorted]: a stable sort that compares with [<] only. *)
Fixpoint insert_sorted (x : nat * R) (l : list (nat * R)) : list (nat * R) :=
  match l with
  | [] => [x]
  | y :: l' => if tuple_lt y x then y :: insert_sorted x l' else x :: y :: l'
  end.

Fixpoint sorted (l : list (nat * R)) : list (nat * R) :=
  match l with
  | [] => []
  | x :: l' => insert_sorted x (sorted l')
  end.

(** [asyncio.as_completed] hands the wrapped tasks back in the order in
    which they finish: some rearrangement of the tasks. *)
Definition as_completed (tasks completed : list (nat * result R)) : Prop :=
  Permutation completed tasks.

(** [[await func for func in ...]]: the first task that raised ends the
    comprehension. *)
Fixpoint await_each (completed : list (nat * result R)) : result (list (nat * R)) :=
  match completed with
  | [] => Ok []
  | (i, Ok r) :: rest => res <- await_each rest ;; Ok ((i, r) :: res)
  | (_, Raise e) :: _ => Raise e
  end.

(** [alive_gather], on the wrapped tasks in their order of completion.  (The
    progress bar counts the tasks as they finish and has no part in the
    value returned.) *)
Definition alive_gather (completed : list (nat * result R)) : result (list R) :=
  res <- await_each completed ;;
  Ok (map snd (sorted res)).
End AliveGather.

(** ** data.py: Request *)

(** A [dict] keeps its items in insertion order, one per key. *)
Definition pydict := list (pystr * pystr).

Fixpoint dict_get (d : pydict) (k : pystr) : option pystr :=
  match d with
  | [] => None
  | (k', v) :: d' => if pystr_eqb k' k then Some v else dict_get d' k
  end.

Fixpoint dict_setitem (d : pydict) (k v : pystr) : pydict :=
  match d with
  | [] => [(k, v)]
  | (k', v') :: d' =>
      if pystr_eqb k' k then (k', v) :: d' else (k', v') :: dict_setitem d' k v
  end.

(** The dict built by inserting the given items in order. *)
Definition dict_of (items : list (pystr * pystr)) : pydict :=
  fold_left (fun d kv => dict_setitem d (fst kv) (snd kv)) items [].

(** [d1 == d2] on dicts: the same number of items, and every item of [d1]
    is found in [d2] with an equal value. *)
Definition dict_eq (d1 d2 : pydict) : bool :=
  (length d1 =? length d2)%nat
  && forallb (fun kv => match dict_get d2 (fst kv) with
                        | Some v => pystr_eqb (snd kv) v
                        | None => false
                        end) d1.

(** The hash functions of the interpreter: of [str] (salted per process), of
    [bool], of a sequence of field hashes, and the two mixing steps of the
    hash of a [frozenset]. *)
Class Hashing := {
  hash_str : pystr -> Z;
  hash_bool : bool -> Z;
  hash_fields : list Z -> Z;
  shuffle_bits : Z -> Z;
  disperse : Z -> nat -> Z
}.

(** A mapping handed to [Request]: a plain [dict] or a [frozendict]. *)
Inductive mapping :=
| plain (d : pydict)
| frozen (d : pydict).

(** [frozendict(m)]. *)
Definition frozendict (m : mapping) : pydict :=
  match m with
  | plain d => d
  | frozen d => d
  end.

Record Request := {
  path : pystr;
  method : pystr;
  data : pydict;
  headers : pydict;
  encoding : pystr;
  selenium : bool
}.

(** Construction followed by [__post_init__]: [data] and [headers] are stored
    as [frozendict]s. *)
Definition Request_init (path method : pystr) (data headers : mapping)
    (encoding : pystr) (selenium : bool) : Request :=
  {| path := path; method := method;
     data := frozendict data; headers := frozendict headers;
     encoding := encoding; selenium := selenium |}.

Section RequestHash.
Context `{Hashing}.

(** The hash of a [frozenset] of already hashed members: an exclusive-or
    over the members, mixed with their number. *)
Definition hash_frozenset (members : list Z) : Z :=
  disperse (fold_right Z.lxor 0%Z (map shuffle_bits members)) (length members).

(** Modelled from the spec: the [frozndict] package is not part of the
    sources; its mappings are "order-independent and immutable", with
    "structural equality/hash": the hash of the set of items. *)
Definition hash_frozendict (d : pydict) : Z :=
  hash_frozenset (map (fun kv => hash_fields [hash_str (fst kv); hash_str (snd kv)]) d).

(** [hash(r)] of a frozen struct: over the fields in declaration order. *)
Definition Request_hash (r : Request) : Z :=
  hash_fields [hash_str (path r); hash_str (method r);
               hash_frozendict (data r); hash_frozendict (headers r);
               hash_str (encoding r); hash_bool (selenium r)].

(** [r1 == r2] of a struct: every field equal. *)
Definition Request_eq (r1 r2 : Request) : bool :=
  pystr_eqb (path r1) (path r2) && pystr_eqb (method r1) (method r2)
  && dict_eq (data r1) (data r2) && dict_eq (headers r1) (headers r2)
  && pystr_eqb (encoding r1) (encoding r2) && Bool.eqb (selenium r1) (selenium r2).

(** A [set] of requests, in insertion order: a member is added unless one
    with the same hash compares equal to it. *)
Definition set_contains (s : list Request) (r : Request) : bool :=
  existsb (fun x => (Request_hash x =? Request_hash r)%Z && Request_eq x r) s.

Definition set_add (s : list Request) (r : Request) : list Request :=
  if set_contains s r then s else s ++ [r].

Definition set_of (rs : list Request) : list Request := fold_left set_add rs [].
End RequestHash.

(** ** data.py: Entry *)

Record Entry := {
  request : Request;
  version_id : pystr;
  source : pystr;
  type_ : option pystr;
  jurisdiction : option pystr;
  date : option pystr;
  title : option pystr;
  other : option pydict
}.

(** [Entry.format_id]. *)
Definition format_id (version_id source : pystr) : pystr :=
  if pystr_eqb (firstn (length source + 1) version_id) (source ++ lit ":")
  then version_id
  else source ++ lit ":" ++ version_id.

(** Construction followed by [__post_init__]. *)
Definition Entry_init (request : Request) (version_id source : pystr)
    (type_ jurisdiction date title : option pystr) (other : option pydict) : Entry :=
  {| request := request; version_id := format_id version_id source;
     source := source; type_ := type_; jurisdiction := jurisdiction;
     date := date; title := title; other := other |}.

(** ** data.py: Response *)

(** An object on the heap: its identity and its value. *)
Record obj (A : Type) := { oid : nat; oval : A }.
Arguments oid {A} o.
Arguments oval {A} o.

(** The derived views of a response. *)
Inductive view := Text | Html | Stream | Json.

Definition view_eqb (a b : view) : bool :=
  match a, b with
  | Text, Text | Html, Html | Stream, Stream | Json, Json => true
  | _, _ => false
  end.

(** The interpreter's side of an access: the next free object identity and
    the record of the views computed so far, latest first. *)
Record interp := { next_id : nat; computed : list view }.

Definition alloc (v : view) (w : interp) : interp :=
  {| next_id := S (next_id w); computed := v :: computed w |}.

(** [io.BytesIO]: a buffer and a read position. *)
Record BytesIO := { buffer : list Byte.byte; position : nat }.

(** The decoders and parsers behind the views. *)
Class Parsers := {
  soup : Type;
  json : Type;
  bytes_decode : list Byte.byte -> pystr -> result pystr;
  BeautifulSoup : pystr -> soup;
  orjson_loads : list Byte.byte -> result json
}.

Section Response.
Context `{Parsers}.

(** A [Response] is a [bytes] value with three attributes; its instance
    dictionary also receives the values stored by [cached_property]. *)
Record Response := {
  body : list Byte.byte;
  resp_encoding : pystr;
  resp_type : pystr;
  resp_status : Z;
  cache_text : option (obj pystr);
  cache_json : option (obj json)
}.

Definition Response_init (content : list Byte.byte) (encoding type : pystr)
    (status : Z) : Response :=
  {| body := content; resp_encoding := encoding; resp_type := type;
     resp_status := status; cache_text := None; cache_json := None |}.

Definition store_text (r : Response) (o : obj pystr) : Response :=
  {| body := body r; resp_encoding := resp_encoding r; resp_type := resp_type r;
     resp_status := resp_status r; cache_text := Some o; cache_json := cache_json r |}.

Definition store_json (r : Response) (o : obj json) : Response :=
  {| body := body r; resp_encoding := resp_encoding r; resp_type := resp_type r;
     resp_status := resp_status r; cache_text := cache_text r; cache_json := Some o |}.

(** An attribute access: from the interpreter state and the instance to a
    value and their new states. *)
Definition access (A : Type) : Type :=
  interp -> Response -> result (A * interp * Response).

(** [@cached_property text]. *)
Definition Response_text : access (obj pystr) := fun w r =>
  match cache_text r with
  | Some o => Ok (o, w, r)
  | None =>
      t <- bytes_decode (body r) (resp_encoding r) ;;
      let o := {| oid := next_id w; oval := t |} in
      Ok (o, alloc Text w, store_text r o)
  end.

(** [@property html]. *)
Definition Response_html : access (obj soup) := fun w r =>
  x <- Response_text w r ;;
  let '(t, w, r) := x in
  Ok ({| oid := next_id w; oval := BeautifulSoup (oval t) |}, alloc Html w, r).

(** [@property stream]. *)
Definition Response_stream : access (obj BytesIO) := fun w r =>
  Ok ({| oid := next_id w; oval := {| buffer := body r; position := 0 |} |},
      alloc Stream w, r).

(** [@cached_property json]. *)
Definition Response_json : access (obj json) := fun w r =>
  match cache_json r with
  | Some o => Ok (o, w, r)
  | None =>
      j <- orjson_loads (body r) ;;
      let o := {| oid := next_id w; oval := j |} in
      Ok (o, alloc Json w, store_json r o)
  end.

(** One access to the view [v]; the identity of the object obtained. *)
Definition get (v : view) : access nat := fun w r =>
  match v with
  | Text => x <- Response_text w r ;; let '(o, w, r) := x in Ok (oid o, w, r)
  | Html => x <- Response_html w r ;; let '(o, w, r) := x in Ok (oid o, w, r)
  | Stream => x <- Response_stream w r ;; let '(o, w, r) := x in Ok (oid o, w, r)
  | Json => x <- Response_json w r ;; let '(o, w, r) := x in Ok (oid o, w, r)
  end.

(** A sequence of accesses to one instance. *)
Fixpoint gets (vs : list view) : access (list nat) := fun w r =>
  match vs with
  | [] => Ok ([], w, r)
  | v :: vs' =>
      x <- get v w r ;;
      let '(i, w, r) := x in
      y <- gets vs' w r ;;
      let '(ids, w, r) := y in
      Ok (i :: ids, w, r)
  end.
End Response.

(** ** data.py: Document and Section *)

(** A field value of a document: a [str] or [None]. *)
Inductive pyval :=
| VStr (s : pystr)
| VNone.

(** An instance of a [msgspec.Struct] class: its fields in declaration
    order. *)
Record struct := { struct_class : string; struct_fields : list (string * pyval) }.

(** A declared field: its name and its default, if it has one. *)
Definition field_decl := (string * option pyval)%type.

Fixpoint kwargs_get (kwargs : list (string * pyval)) (name : string) : option pyval :=
  match kwargs with
  | [] => None
  | (n, v) :: kwargs' => if String.eqb n name then Some v else kwargs_get kwargs' name
  end.

(** The first keyword argument that names no field. *)
Fixpoint unexpected (fields : list field_decl) (kwargs : list (string * pyval))
  : option string :=
  match kwargs with
  | [] => None
  | (n, _) :: kwargs' =>
      if existsb (fun f => String.eqb (fst f) n) fields
      then unexpected fields kwargs'
      else Some n
  end.

Fixpoint fill (fields : list field_decl) (kwargs : list (string * pyval))
  : result (list (string * pyval)) :=
  match fields with
  | [] => Ok []
  | (n, default) :: fields' =>
      v <- match kwargs_get kwargs n, default with
           | Some v, _ => Ok v
           | None, Some d => Ok d
           | None, None =>
               Raise (TypeError (lit "Missing required argument '" ++ lit n ++ lit "'"))
           end ;;
      vs <- fill fields' kwargs ;;
      Ok ((n, v) :: vs)
  end.

(** A call [cls(name = value, ...)] of a struct class. *)
Definition struct_new (cls : string) (fields : list field_decl)
    (kwargs : list (string * pyval)) : result struct :=
  match unexpected fields kwargs with
  | Some n => Raise (TypeError (lit "Unexpected keyword argument '" ++ lit n ++ lit "'"))
  | None =>
      vs <- fill fields kwargs ;;
      Ok {| struct_class := cls; struct_fields := vs |}
  end.

Definition Document : list (string * pyval) -> result struct :=
  struct_new "Document"
    [("version_id", None); ("type", None); ("jurisdiction", None);
     ("source", None); ("mime", None); ("date", None); ("citation", None);
     ("url", None); ("when_scraped", None); ("text", None);
     ("other", Some VNone)].

Definition Section_ : list (string * pyval) -> result struct :=
  struct_new "Section"
    [("id", None); ("document_id", None); ("type", None); ("number", None);
     ("title", None); ("text", None); ("citation", None); ("url", None);
     ("when_scraped", None)].

Definition JURISDICTIONS : pydict :=
  [ (lit "commonwealth", lit "Cth");
    (lit "new_south_wales", lit "NSW");
    (lit "victoria", lit "Vic");
    (lit "queensland", lit "Qld");
    (lit "south_australia", lit "SA");
    (lit "western_australia", lit "WA");
    (lit "tasmania", lit "Tas");
    (lit "northern_territory", lit "NT");
    (lit "australian_capital_territory", lit "ACT");
    (lit "norfolk_island", lit "NI") ].

Section Normaliser.
Context `{Runtime}.

(** The pattern [r' No\s+\d+$']. *)
Definition No_number : regex :=
  chars (lit " No") ++ [Many1 is_space; Many1 is_decimal; Dollar].

Definition format_citation (title type jurisdiction : pystr) : result pystr :=
  (* Unescape HTML character entities. *)
  let title := html_unescape title in
  (* Format the citations of legislation. *)
  title <-
    (if negb (pystr_eqb type (lit "decision")) then
       (* re.sub(r' No\s+\d+$', '', title) *)
       let title := re_sub No_number [] title in
       match dict_get JURISDICTIONS jurisdiction with
       | None =>
           Raise (ValueError
             (lit "Unable to find an abbreviated form of the following jurisdiction: "
              ++ jurisdiction ++ lit "."))
       | Some abbreviated_jurisdiction =>
           (* title.split(f'({abbreviated_jurisdiction})')[0] *)
           let title :=
             hd [] (str_split title (lit "(" ++ abbreviated_jurisdiction ++ lit ")")) in
           Ok (title ++ lit " (" ++ abbreviated_jurisdiction ++ lit ")")
       end
     else Ok title) ;;
  (* re.sub(r'\s+', ' ', title) *)
  let title := re_sub [Many1 is_space] (lit " ") title in
  (* ' '.join(title.split()) *)
  let title := str_join (lit " ") (str_split_ws title) in
  Ok title.

(** The test applied by [make_doc] and [make_section]:
    [len(re.sub(r'\W', '', text)) < 9]. *)
Definition too_short (text : pystr) : bool :=
  (length (re_sub [One is_nonword] [] text) <? 9)%nat.

Definition short_text_warning (url text : pystr) : pystr :=
  lit "The text of " ++ url
  ++ lit " was, when stripped of non-alphabetic characters, less than 9 characters long. The text extracted was "
  ++ [34] ++ text ++ [34] ++ lit ". Returning `None`.".

(** [make_doc]; [now] is the time stamp read from the clock.  The outcome is
    the value returned, [None] or a document, with the warnings printed. *)
Definition make_doc (now : pystr)
    (version_id type jurisdiction source mime : pystr) (date : pyval)
    (citation url text : pystr) : result (option struct * list pystr) :=
  citation <- format_citation citation type jurisdiction ;;
  let text := clean_text text in
  if too_short text then
    Ok (None, warning (short_text_warning url text))
  else
    doc <- Document
      [("version_id", VStr version_id); ("type", VStr type);
       ("jurisdiction", VStr jurisdiction); ("source", VStr source);
       ("mime", VStr mime); ("date", date); ("citation", VStr citation);
       ("url", VStr url); ("when_scraped", VStr now); ("text", VStr text)] ;;
    Ok (Some doc, []).

Definition make_section (now : pystr)
    (version_id jurisdiction type number title citation url text : pystr)
  : result (option struct * list pystr) :=
  citation <- format_citation citation type jurisdiction ;;
  let text := clean_text text in
  if too_short text then
    Ok (None, warning (short_text_warning url text))
  else
    section <- Section_
      [("id", VStr (version_id ++ lit "/" ++ citation));
       ("document_id", VStr version_id); ("type", VStr type);
       ("jurisdiction", VStr jurisdiction); ("title", VStr title);
       ("number", VStr number); ("citation", VStr citation);
       ("url", VStr url); ("when_scraped", VStr now); ("text", VStr text)] ;;
    Ok (Some section, []).
End Normaliser.

(** ** helpers.py: JSON lines *)

(** [save_jsonl]: the bytes written to the file opened with ['wb'], and the
    exception of the encoder that ended the writing, if one did. *)
Fixpoint save_jsonl {A} (content : list A) (encoder : A -> result (list Byte.byte))
  : list Byte.byte * option exn :=
  match content with
  | [] => ([], None)
  | entry :: content' =>
      match encoder entry with
      | Raise e => ([], Some e)
      | Ok bytes =>
          let (written, raised) := save_jsonl content' encoder in
          (bytes ++ [Byte.x0a] ++ written, raised)
      end
  end.

(** The lines that iterating over a file opened with ['rb'] gives: each ends
    with its line feed, but for a last line without one. *)
Fixpoint file_lines (file : list Byte.byte) : list (list Byte.byte) :=
  match file with
  | [] => []
  | b :: file' =>
      if Byte.eqb b Byte.x0a then [b] :: file_lines file'
      else match file_lines file' with
           | line :: rest => (b :: line) :: rest
           | [] => [[b]]
           end
  end.

Fixpoint decode_each {A} (decoder : list Byte.byte -> result A)
    (lines : list (list Byte.byte)) : result (list A) :=
  match lines with
  | [] => Ok []
  | json :: lines' =>
      x <- decoder json ;;
      xs <- decode_each decoder lines' ;;
      Ok (x :: xs)
  end.

(** [load_jsonl]: [[decoder(json) for json in file]]. *)
Definition load_jsonl {A} (file : list Byte.byte)
    (decoder : list Byte.byte -> result A) : result (list A) :=
  decode_each decoder (file_lines file).

(** ** scripts/convert_corpus_to_schema.py *)

(** The further exceptions of the scripts and the scrapers. *)
Inductive raised :=
| KeyError (key : pystr)
| AttributeError (msg : pystr)
| IndexError (msg : pystr)
| Builtin (e : exn).

Inductive outcome (A : Type) :=
| Returned (a : A)
| Raised (e : raised).
Arguments Returned {A} a.
Arguments Raised {A} e.

(** The dict literal of [jurisdiction_normalise]. *)
Definition jurisdiction_ids : pydict :=
  [ (lit "south_australia", lit "J0105");
    (lit "western_australia", lit "J0105");
    (lit "tasmania", lit "J0106");
    (lit "new_south_wales", lit "J0103");
    (lit "commonwealth", lit "J0100");
    (lit "queensland", lit "J0102");
    (lit "victoria", lit "J0101");
    (lit "norfolk_island", lit "J0109") ].

Definition jurisdiction_normalise (x : pystr) : outcome pystr :=
  match dict_get jurisdiction_ids x with
  | Some id => Returned id
  | None => Raised (KeyError x)
  end.

(** [main]: the rows of the corpus are read in order; [process], which builds
    the document record and the document text of a row, is taken as given. *)
Section Converter.
Variables row document_record document_text : Type.
Variable row_type : row -> pystr.
Variable process : row -> outcome (document_record * document_text).

(** What [main] has written: the lines of [document_records.jsonl] and the
    batches of the files of the [documents] directory, in the order of
    writing. *)
Record written := {
  document_file : list document_record;
  batch_files : list (list document_text)
}.

(** The [for] loop over the rows; [text_batch] is the batch being filled. *)
Fixpoint main_loop (rows : list row) (text_batch : list document_text)
    (out : written) : written * list document_text * option raised :=
  match rows with
  | [] => (out, text_batch, None)
  | r :: rows' =>
      if pystr_eqb (row_type r) (lit "bill") then main_loop rows' text_batch out
      else
        match process r with
        | Raised e => (out, text_batch, Some e)
        | Returned (doc, text) =>
            let out := {| document_file := document_file out ++ [doc];
                          batch_files := batch_files out |} in
            let text_batch := text_batch ++ [text] in
            if (Z.of_nat (length text_batch) =? 10000)%Z
            then main_loop rows'
                   [] {| document_file := document_file out;
                         batch_files := batch_files out ++ [text_batch] |}
            else main_loop rows' text_batch out
        end
  end.

(** [main]: after the loop the batch left is written, also when it is
    empty; an exception of [process] ends the run before that. *)
Definition main (rows : list row) : written * option raised :=
  match main_loop rows [] {| document_file := []; batch_files := [] |} with
  | (out, text_batch, None) =>
      ({| document_file := document_file out;
          batch_files := batch_files out ++ [text_batch] |}, None)
  | (out, _, Some e) => (out, Some e)
  end.
End Converter.

(** ** scrapers/queensland_caselaw.py *)

(** The character class of [.]. *)
Definition is_not_newline (c : N) : bool := negb (c =? LF).

(** The pattern [r'https://www.queenslandjudgments.com.au/caselaw?page=685']
    of [get_index], in which the [w] before [?] is optional: with the [w] and
    without it. *)
Definition index_page_with_w : regex :=
  chars (lit "https://www") ++ [One is_not_newline]
  ++ chars (lit "queenslandjudgments") ++ [One is_not_newline]
  ++ chars (lit "com") ++ [One is_not_newline]
  ++ chars (lit "au/caselawpage=685").

Definition index_page_without_w : regex :=
  chars (lit "https://www") ++ [One is_not_newline]
  ++ chars (lit "queenslandjudgments") ++ [One is_not_newline]
  ++ chars (lit "com") ++ [One is_not_newline]
  ++ chars (lit "au/caselapage=685").

(** Whether [re.search(r, s)] finds a match. *)
Fixpoint search_from (r : regex) (before s : pystr) : bool :=
  match match_here r false before s with
  | Some _ => true
  | None =>
      match s with
      | [] => false
      | c :: s' => search_from r (c :: before) s'
      end
  end.

Definition re_search_found (r : regex) (s : pystr) : bool := search_from r [] s.

Section QueenslandCaselaw.
(** The text that [log] prints for an exception of the function named. *)
Variable error_message : string -> raised -> Request -> pystr.

(** What [get_index] does after its first statement, with [table] bound. *)
Variable A : Type.
Variable rest_of_get_index : pystr -> Request -> outcome A.

(** [log]: the wrapper warns of an exception and raises it again. *)
Definition log (name : string) (func : Request -> outcome A) (req : Request)
  : outcome A * list pystr :=
  match func req with
  | Returned a => (Returned a, [])
  | Raised e => (Raised e, warning (error_message name e req))
  end.

(** [re.search(...).group(1)] for the pattern of [get_index], which has no
    group: [None] has no attribute [group], and a match has no group 1. *)
Definition search_group_1 (s : pystr) : outcome pystr :=
  if re_search_found index_page_with_w s || re_search_found index_page_without_w s
  then Raised (IndexError (lit "no such group"))
  else Raised (AttributeError (lit "'NoneType' object has no attribute 'group'")).

Definition get_index : Request -> outcome A * list pystr :=
  log "get_index"
      (fun req =>
         match search_group_1 (path req) with
         | Returned table => rest_of_get_index table req
         | Raised e => Raised e
         end).
End QueenslandCaselaw.

(** ** Vocabulary of the properties *)

(** Every batch but the last has [n] items. *)
Definition full_but_last {A} (n : Z) (batches : list (list A)) : Prop :=
  forall pre b next post,
    batches = pre ++ b :: next :: post -> Z.of_nat (length b) = n.

(** The order of tuples with different indices. *)
Definition index_lt {R} (a b : nat * R) : Prop := (fst a < fst b)%nat.

(** The wrapped task that returns the second component. *)
Definition wrap {R} (x : nat * R) : nat * result R := (fst x, Ok (snd x)).

(** A dict holds one item per key. *)
Definition dict_wf (d : pydict) : Prop := NoDup (map fst d).

(** Two dicts that map every key alike, whatever the order of their items. *)
Definition same_items (d1 d2 : pydict) : Prop :=
  forall k, dict_get d1 k = dict_get d2 k.

(** How often the view [v] occurs in a list of views. *)
Definition times (v : view) (vs : list view) : nat :=
  length (filter (view_eqb v) vs).

(** The identities obtained by the accesses to the view [v]. *)
Definition ids_of (v : view) (vs : list view) (ids : list nat) : list nat :=
  map snd (filter (fun p => view_eqb v (fst p)) (combine vs ids)).

(** Whether some access reads the decoded text: [text] itself or [html]. *)
Definition reads_text (vs : list view) : bool :=
  existsb (fun v => view_eqb Text v || view_eqb Html v) vs.

(** Over any accesses to a new response, the view [v] is computed at most
    once. *)
Definition computed_once `{Parsers} (v : view) : Prop :=
  forall content encoding type status w vs ids w' r',
    gets vs w (Response_init content encoding type status) = Ok (ids, w', r') ->
    (times v (computed w') <= times v (computed w) + 1)%nat.

(** The longest prefix of characters in the class [p], and what follows. *)
Fixpoint take_while (p : N -> bool) (s : pystr) : pystr :=
  match s with
  | c :: s' => if p c then c :: take_while p s' else []
  | [] => []
  end.

Fixpoint drop_while (p : N -> bool) (s : pystr) : pystr :=
  match s with
  | c :: s' => if p c then drop_while p s' else s
  | [] => []
  end.

(** Every run of whitespace replaced by one space; [in_run] tells that the
    character before was whitespace. *)
Fixpoint collapse (in_run : bool) (s : pystr) : pystr :=
  match s with
  | [] => []
  | c :: s' =>
      if is_space c
      then if in_run then collapse true s' else SPACE :: collapse true s'
      else c :: collapse false s'
  end.

(** The text before the first occurrence of [sep]; the whole text when
    there is none. *)
Fixpoint before_first (sep s : pystr) : pystr :=
  match s with
  | [] => []
  | c :: s' => if starts_with sep s then [] else c :: before_first sep s'
  end.

(** What a pattern accepts: [accepts r before m rest] says that [r] matches
    the text [m] found between [before] (reversed) and [rest]. *)
Fixpoint accepts (r : regex) (before m rest : pystr) : Prop :=
  match r with
  | [] => m = []
  | One p :: r' =>
      exists c m', m = c :: m' /\ p c = true /\ accepts r' (c :: before) m' rest
  | Many0 p :: r' =>
      exists m1 m2, m = m1 ++ m2 /\ forallb p m1 = true
                    /\ accepts r' (rev m1 ++ before) m2 rest
  | Many1 p :: r' =>
      exists m1 m2, m = m1 ++ m2 /\ m1 <> [] /\ forallb p m1 = true
                    /\ accepts r' (rev m1 ++ before) m2 rest
  | Behind p :: r' =>
      (exists c b, before = c :: b /\ p c = true) /\ accepts r' before m rest
  | Ahead p :: r' =>
      (exists c t, m ++ rest = c :: t /\ p c = true) /\ accepts r' before m rest
  | Caret :: r' => before = [] /\ accepts r' before m rest
  | Dollar :: r' => (m ++ rest = [] \/ m ++ rest = [LF]) /\ accepts r' before m rest
  end.

(** The characters of a text that are not whitespace. *)
Definition non_space (s : pystr) : pystr := filter (fun c => negb (is_space c)) s.

(** The abbreviation [a] between parentheses. *)
Definition paren (a : pystr) : pystr := lit "(" ++ a ++ lit ")".

(** A text that ends in " No", whitespace and digits, before a last line feed
    if there is one: [p] is the text before " No" and [nl] the line feed. *)
Definition No_suffixed `{Runtime} (t p nl : pystr) : Prop :=
  exists ws ds,
    t = p ++ lit " No" ++ ws ++ ds ++ nl
    /\ ws <> [] /\ forallb is_space ws = true
    /\ ds <> [] /\ forallb is_decimal ds = true
    /\ (nl = [] \/ nl = [LF]).

(** The ASCII letters. *)
Definition ascii_isalpha (c : N) : bool :=
  ((65 <=? c) && (c <=? 90)) || ((97 <=? c) && (c <=? 122)).

(** The lines of a text: the pieces between line feeds. *)
Definition lines (s : pystr) : list pystr := str_split s [LF].

(** The transitions of one successful access to a view. *)
Section Steps.
Context `{Parsers}.

Inductive step : view -> interp -> Response -> nat -> interp -> Response -> Prop :=
| step_text_hit w r o :
    cache_text r = Some o -> step Text w r (oid o) w r
| step_text_miss w r t :
    cache_text r = None ->
    step Text w r (next_id w) (alloc Text w)
         (store_text r {| oid := next_id w; oval := t |})
| step_html_hit w r o :
    cache_text r = Some o -> step Html w r (next_id w) (alloc Html w) r
| step_html_miss w r t :
    cache_text r = None ->
    step Html w r (S (next_id w)) (alloc Html (alloc Text w))
         (store_text r {| oid := next_id w; oval := t |})
| step_stream w r :
    step Stream w r (next_id w) (alloc Stream w) r
| step_json_hit w r o :
    cache_json r = Some o -> step Json w r (oid o) w r
| step_json_miss w r j :
    cache_json r = None ->
    step Json w r (next_id w) (alloc Json w)
         (store_json r {| oid := next_id w; oval := j |}).
End Steps.

(** ** Instances for the examples *)

(** A hash of strings by their code points, for evaluating examples. *)
#[local] Instance example_hashing : Hashing := {|
  hash_str := fun s => fold_right (fun c h => (Z.of_N c + 31 * h)%Z) 7%Z s;
  hash_bool := fun b => if b then 1%Z else 0%Z;
  hash_fields := fun hs => fold_right (fun x h => (x + 1000003 * h)%Z) 5381%Z hs;
  shuffle_bits := fun h => (Z.lxor h 89869747 * 3644798167)%Z;
  disperse := fun h n => (h + Z.of_nat n * 1927868237)%Z
|}.

(** Parsers for evaluating examples: Latin-1 decoding, and trees and JSON
    values standing for their source text. *)
#[local] Instance example_parsers : Parsers := {|
  soup := pystr;
  json := pystr;
  bytes_decode := fun b _ => Ok (map Byte.to_N b);
  BeautifulSoup := fun t => t;
  orjson_loads := fun b => Ok (map Byte.to_N b)
|}.

(** Character data for evaluating examples on ASCII texts: no further
    letters or digits, and no character reference to replace. *)
#[local] Instance example_runtime : Runtime := {|
  uni_isalnum := fun _ => false;
  uni_isdecimal := fun _ => false;
  replace_charrefs := fun s => s
|}.

(** Rows of a type and a number, for evaluating the converter: the row of
    number 7 cannot be processed. *)
Definition example_row_type (r : pystr * nat) : pystr := fst r.

Definition example_process (r : pystr * nat) : outcome (nat * nat) :=
  if (snd r =? 7)%nat then Raised (KeyError (lit "northern_territory"))
  else Returned (snd r, (10 * snd r)%nat).

(** A 64-bit build. *)
#[local] Instance example_platform : Platform := {| sys_maxsize := 2 ^ 63 - 1 |}.

(** ** Tactics *)

Ltac same_cache :=
  repeat match goal with
         | H1 : ?c = Some ?a, H2 : ?c = Some ?b |- _ =>
             rewrite H1 in H2; injection H2 as <-
         end.

(** ** Vocabulary of the line structure of a cleaned text *)

(** The three last patterns of [clean_text]. *)
Definition leading_blank_lines : regex := [Caret; Many0 is_space; One is_newline].
Definition trailing_blank_lines : regex := [One is_newline; Many0 is_space; Dollar].
Definition line_end_blanks : regex := [Many1 is_space_or_tab; One is_newline].

(** What is left of a text after its leading whitespace up to and with the
    last line feed in it; [None] when that whitespace holds no line feed. *)
Fixpoint after_leading_lines (s : pystr) : option pystr :=
  match s with
  | c :: s' =>
      if is_space c then
        match after_leading_lines s' with
        | Some r => Some r
        | None => if is_newline c then Some s' else None
        end
      else None
  | [] => None
  end.

(** The text cut at the first line feed that only whitespace follows. *)
Fixpoint cut_trailing_lines (s : pystr) : pystr :=
  match s with
  | [] => []
  | c :: s' =>
      if is_newline c && forallb is_space s' then [] else c :: cut_trailing_lines s'
  end.

(** Whether the spaces and tabs at the head of a text run up to a line
    feed. *)
Definition blanks_then_newline (s : pystr) : bool :=
  match drop_while is_space_or_tab s with
  | d :: _ => is_newline d
  | [] => false
  end.

(** The text without the spaces and tabs that run up to a line feed. *)
Fixpoint drop_line_end_blanks (s : pystr) : pystr :=
  match s with
  | [] => []
  | c :: s' =>
      if is_space_or_tab c && blanks_then_newline s'
      then drop_line_end_blanks s'
      else c :: drop_line_end_blanks s'
  end.

(** A space or tab stands right before a line feed. *)
Fixpoint blank_before_newline (s : pystr) : bool :=
  match s with
  | c :: s' =>
      (is_space_or_tab c && match s' with d :: _ => is_newline d | [] => false end)
      || blank_before_newline s'
  | [] => false
  end.

(** The text starts with a blank line: a line feed stands in its leading
    whitespace. *)
Definition starts_with_blank_line (s : pystr) : bool :=
  existsb is_newline (take_while is_space s).

(** The text ends with a line feed or a blank line: only whitespace follows
    one of its line feeds. *)
Fixpoint ends_with_blank_line (s : pystr) : bool :=
  match s with
  | [] => false
  | c :: s' => (is_newline c && forallb is_space s') || ends_with_blank_line s'
  end.

(** A word: a text that is not empty and holds no whitespace. *)
Definition is_a_word (w : pystr) : Prop :=
  w <> [] /\ forallb (fun c => negb (is_space c)) w = true.

(** The words of a list, each followed by a space. *)
Definition spaced (words : list pystr) : pystr :=
  concat (map (fun w => w ++ [SPACE]) words).

(** The text [sep] occurs in the text [s]. *)
Definition occurs (sep s : pystr) : Prop := exists u v, s = u ++ sep ++ v.

(** The rows that the converter processes: all but the bills. *)
Definition non_bill_rows {row} (row_type : row -> pystr) (rows : list row) : list row :=
  filter (fun r => negb (pystr_eqb (row_type r) (lit "bill"))) rows.

(** Batches of ten thousand texts each. *)
Definition full_batches {A} (batches : list (list A)) : Prop :=
  Forall (fun b => Z.of_nat (length b) = 10000%Z) batches.

(** * Properties *)

(** ** Strings *)

Lemma pystr_eqb_eq (a b : pystr) : pystr_eqb a b = true <-> a = b.
Proof.
  unfold pystr_eqb. destruct (list_eq_dec N.eq_dec a b); split; congruence.
Qed.

Lemma pystr_eqb_refl (a : pystr) : pystr_eqb a a = true.
Proof. now apply pystr_eqb_eq. Qed.

Lemma pystr_eqb_neq (a b : pystr) : pystr_eqb a b = false <-> a <> b.
Proof.
  unfold pystr_eqb. destruct (list_eq_dec N.eq_dec a b); split; congruence.
Qed.

Lemma starts_with_app (p s : pystr) : starts_with p (p ++ s) = true.
Proof.
  induction p as [|a p IH]; simpl; [reflexivity|].
  now rewrite N.eqb_refl, IH.
Qed.

Lemma starts_with_prefix (p s : pystr) :
  starts_with p s = true <-> exists rest, s = p ++ rest.
Proof.
  split.
  - revert s. induction p as [|a p IH]; intros s Hs.
    + now exists s.
    + destruct s as [|b s]; simpl in Hs; [discriminate|].
      apply andb_true_iff in Hs. destruct Hs as [Hab Hs].
      apply N.eqb_eq in Hab. subst b.
      destruct (IH _ Hs) as [rest ->]. now exists rest.
  - intros [rest ->]. apply starts_with_app.
Qed.

Lemma firstn_eqb_starts_with (p s : pystr) :
  pystr_eqb (firstn (length p) s) p = starts_with p s.
Proof.
  destruct (starts_with p s) eqn:E.
  - apply starts_with_prefix in E. destruct E as [rest ->].
    apply pystr_eqb_eq.
    rewrite firstn_app, Nat.sub_diag, firstn_all. simpl. apply app_nil_r.
  - apply pystr_eqb_neq. intros Heq.
    assert (starts_with p s = true) as E'; [|congruence].
    apply starts_with_prefix. exists (skipn (length p) s).
    rewrite <- Heq at 1. symmetry. apply firstn_skipn.
Qed.

(** ** Entry *)

Lemma format_id_unfold (version_id source : pystr) :
  format_id version_id source =
  if starts_with (source ++ lit ":") version_id
  then version_id
  else source ++ lit ":" ++ version_id.
Proof.
  unfold format_id.
  replace (length source + 1)%nat with (length (source ++ lit ":")).
  - now rewrite firstn_eqb_starts_with.
  - rewrite length_app. reflexivity.
Qed.

Lemma format_id_prefixed (version_id source : pystr) :
  starts_with (source ++ lit ":") (format_id version_id source) = true.
Proof.
  rewrite format_id_unfold.
  destruct (starts_with (source ++ lit ":") version_id) eqn:E; [exact E|].
  rewrite app_assoc. apply starts_with_app.
Qed.

(** C7.  The version id of every constructed entry starts with the entry's
    source followed by a colon; [format_id] prefixes the source exactly when
    the id is not prefixed already, maps "abc123" of "queensland_caselaw" to
    "queensland_caselaw:abc123", and applied again changes nothing. *)
Theorem Entry_version_id_namespaced :
  (forall req vid src ty jur dt ttl oth,
      let e := Entry_init req vid src ty jur dt ttl oth in
      exists raw, version_id e = source e ++ lit ":" ++ raw)
  /\ (forall vid src,
         format_id vid src =
         if starts_with (src ++ lit ":") vid then vid else src ++ lit ":" ++ vid)
  /\ format_id (lit "abc123") (lit "queensland_caselaw") = lit "queensland_caselaw:abc123"
  /\ (forall vid src, format_id (format_id vid src) src = format_id vid src).
Proof.
  repeat split.
  - intros. subst e. simpl.
    pose proof (format_id_prefixed vid src) as P.
    apply starts_with_prefix in P. destruct P as [raw P].
    exists raw. rewrite P. now rewrite <- app_assoc.
  - intros. apply format_id_unfold.
  - intros. rewrite (format_id_unfold (format_id vid src)).
    now rewrite format_id_prefixed.
Qed.

(** ** batch_generator *)

Section Batches.
Context `{Platform} {A : Type}.

(** [islice] accepts the stops from 0 to [sys.maxsize]. *)
Lemma islice_stop_error_None (stop : Z) :
  islice_stop_error stop = None <-> (0 <= stop <= sys_maxsize)%Z.
Proof.
  unfold islice_stop_error.
  destruct (stop =? -1)%Z eqn:E1; cbn [orb];
    [apply Z.eqb_eq in E1; split; [discriminate|lia]|].
  destruct (stop <? - sys_maxsize - 1)%Z eqn:E2; cbn [orb];
    [apply Z.ltb_lt in E2; split; [discriminate|lia]|].
  destruct (sys_maxsize <? stop)%Z eqn:E3;
    [apply Z.ltb_lt in E3; split; [discriminate|lia]|].
  destruct (stop <? 0)%Z eqn:E4;
    [apply Z.ltb_lt in E4; split; [discriminate|lia]|].
  apply Z.ltb_ge in E3, E4. split; [lia|reflexivity].
Qed.

Lemma islice_stop_error_beyond (stop : Z) :
  (sys_maxsize < stop)%Z ->
  islice_stop_error stop
  = Some (ValueError (lit "Stop argument for islice() must be None or an integer: 0 <= x <= sys.maxsize.")).
Proof.
  intros Hs. unfold islice_stop_error.
  replace (sys_maxsize <? stop)%Z with true by (symmetry; apply Z.ltb_lt; lia).
  now rewrite !orb_true_r.
Qed.

Lemma batch_generator_cons (first : A) (iterator : list A) (n : Z) :
  (1 <= n <= sys_maxsize + 1)%Z ->
  batch_generator (first :: iterator) n =
  yield (first :: firstn (Z.to_nat (n - 1)) iterator)
        (batch_generator (skipn (Z.to_nat (n - 1)) iterator) n).
Proof.
  intros Hn. rewrite batch_generator_equation_2.
  assert (islice_stop_error (n - 1) = None) as ->
    by (apply islice_stop_error_None; lia).
  reflexivity.
Qed.

Lemma full_but_last_cons (n : Z) (b : list A) (batches : list (list A)) :
  (batches <> [] -> Z.of_nat (length b) = n) ->
  full_but_last n batches ->
  full_but_last n (b :: batches).
Proof.
  intros Hb Hrest pre b' next post E.
  destruct pre as [|x pre]; simpl in E; injection E as <- E.
  - apply Hb. rewrite E. discriminate.
  - eapply Hrest. exact E.
Qed.

Lemma batch_generator_spec (n : Z) (Hn : (1 <= n <= sys_maxsize + 1)%Z) (len : nat) :
  forall l : list A, (length l <= len)%nat ->
    snd (batch_generator l n) = None
    /\ Forall (fun b => b <> [] /\ (Z.of_nat (length b) <= n)%Z) (fst (batch_generator l n))
    /\ full_but_last n (fst (batch_generator l n))
    /\ concat (fst (batch_generator l n)) = l.
Proof.
  induction len as [|len IH]; intros l Hl.
  - destruct l; [|simpl in Hl; lia].
    rewrite batch_generator_equation_1. simpl. repeat split; auto.
    intros pre b next post E. destruct pre; discriminate.
  - destruct l as [|first iterator].
    + rewrite batch_generator_equation_1. simpl. repeat split; auto.
      intros pre b next post E. destruct pre; discriminate.
    + rewrite batch_generator_cons by assumption.
      set (k := Z.to_nat (n - 1)).
      assert (length (skipn k iterator) <= len)%nat as Hlen
        by (rewrite length_skipn; simpl in Hl; lia).
      destruct (IH _ Hlen) as (Hend & Hall & Hfull & Hcat).
      unfold yield. simpl. repeat split.
      * exact Hend.
      * constructor; [|exact Hall]. split; [discriminate|].
        simpl. rewrite length_firstn. lia.
      * apply full_but_last_cons; [|exact Hfull].
        intros Hne. simpl. rewrite length_firstn.
        destruct (Nat.le_gt_cases k (length iterator)) as [Hk|Hk]; [lia|].
        exfalso. apply Hne.
        rewrite skipn_all2 by lia. now rewrite batch_generator_equation_1.
      * rewrite Hcat. f_equal. apply firstn_skipn.
Qed.
End Batches.

(** C10 (as amended).  For a batch size from 1 to [sys.maxsize + 1],
    [batch_generator] runs to the end of the iterable without an error; every
    batch it yields is non-empty and has at most [n] items, every batch but
    the last has exactly [n] items, and the batches put one after the other
    give back the iterable.  For a larger batch size and an iterable that is
    not empty it yields nothing and ends with the [ValueError] of
    [itertools.islice]. *)
Theorem batch_generator_partitions `{Platform} (A : Type) (iterable : list A) (n : Z) :
  ((1 <= n <= sys_maxsize + 1)%Z ->
   snd (batch_generator iterable n) = None
   /\ Forall (fun b => b <> [] /\ (Z.of_nat (length b) <= n)%Z)
             (fst (batch_generator iterable n))
   /\ (forall pre b next post,
          fst (batch_generator iterable n) = pre ++ b :: next :: post ->
          Z.of_nat (length b) = n)
   /\ concat (fst (batch_generator iterable n)) = iterable)
  /\ ((sys_maxsize + 1 < n)%Z -> iterable <> [] ->
      batch_generator iterable n
      = ([], Some (ValueError (lit "Stop argument for islice() must be None or an integer: 0 <= x <= sys.maxsize.")))).
Proof.
  split.
  - intros Hn. now apply (@batch_generator_spec _ A n Hn (length iterable)).
  - intros Hn Hne. destruct iterable as [|first iterator]; [contradiction|].
    rewrite batch_generator_equation_2.
    now rewrite islice_stop_error_beyond by lia.
Qed.

Lemma batch_generator_partitions_witness :
  (1 <= 2 <= @sys_maxsize example_platform + 1)%Z
  /\ fst (@batch_generator example_platform nat [1; 2; 3; 4; 5]%nat 2%Z)
     = [[1; 2]; [3; 4]; [5]]%nat
  /\ concat (fst (@batch_generator example_platform nat [1; 2; 3; 4; 5]%nat 2%Z))
     = [1; 2; 3; 4; 5]%nat
  /\ (@sys_maxsize example_platform + 1 < 2 ^ 63 + 1)%Z
  /\ @batch_generator example_platform nat [1; 2; 3; 4; 5]%nat (2 ^ 63 + 1)%Z
     = ([], Some (ValueError (lit "Stop argument for islice() must be None or an integer: 0 <= x <= sys.maxsize."))).
Proof.
  assert (1 <= 2 <= @sys_maxsize example_platform + 1)%Z as Hn by (cbv; split; discriminate).
  assert (@sys_maxsize example_platform + 1 < 2 ^ 63 + 1)%Z as Hbig by reflexivity.
  destruct (@batch_generator_partitions example_platform nat [1; 2; 3; 4; 5]%nat 2%Z)
    as [Hin _].
  destruct (@batch_generator_partitions example_platform nat [1; 2; 3; 4; 5]%nat
              (2 ^ 63 + 1)%Z) as [_ Hout].
  split; [exact Hn|]. split; [reflexivity|].
  split; [apply (Hin Hn)|]. split; [exact Hbig|].
  apply (Hout Hbig). discriminate.
Defined.

(** C10 as stated does not hold: on a 64-bit build, with the batch size
    [2^63 + 1], which is at least 1, the generator yields no batch of the
    iterable [[1; 2; 3]] and ends with a [ValueError]. *)
Lemma batch_generator_beyond_maxsize :
  (1 <= 2 ^ 63 + 1)%Z
  /\ snd (@batch_generator example_platform nat [1; 2; 3]%nat (2 ^ 63 + 1)%Z) <> None
  /\ concat (fst (@batch_generator example_platform nat [1; 2; 3]%nat (2 ^ 63 + 1)%Z))
     <> [1; 2; 3]%nat.
Proof.
  split; [discriminate|].
  rewrite batch_generator_equation_2.
  rewrite (@islice_stop_error_beyond example_platform) by reflexivity.
  split; discriminate.
Qed.

(** ** alive_gather *)

Section Gather.
Variable R : Type.
Variable R_lt : R -> R -> bool.

Lemma enumerate_from_map_Ok (i : nat) (l : list R) :
  enumerate_from i (map Ok l) = map wrap (enumerate_from i l).
Proof.
  revert i. induction l as [|x l IH]; intros i; simpl; [reflexivity|].
  now rewrite IH.
Qed.

Lemma await_each_wrap (res : list (nat * R)) :
  await_each (map wrap res) = Ok res.
Proof.
  induction res as [|[i r] res IH]; simpl; [reflexivity|].
  now rewrite IH.
Qed.

Lemma map_fst_enumerate_from (i : nat) (l : list R) :
  map fst (enumerate_from i l) = seq i (length l).
Proof.
  revert i. induction l as [|x l IH]; intros i; simpl; [reflexivity|].
  now rewrite IH.
Qed.

Lemma map_snd_enumerate_from (i : nat) (l : list R) :
  map snd (enumerate_from i l) = l.
Proof.
  revert i. induction l as [|x l IH]; intros i; simpl; [reflexivity|].
  now rewrite IH.
Qed.

Lemma enumerate_from_sorted (i : nat) (l : list R) :
  StronglySorted index_lt (enumerate_from i l).
Proof.
  revert i. induction l as [|x l IH]; intros i; simpl; constructor.
  - apply IH.
  - apply Forall_forall. intros y Hy.
    apply (in_map fst) in Hy. rewrite map_fst_enumerate_from in Hy.
    apply in_seq in Hy. unfold index_lt. simpl. lia.
Qed.

Lemma insert_sorted_perm (x : nat * R) (l : list (nat * R)) :
  Permutation (insert_sorted R_lt x l) (x :: l).
Proof.
  induction l as [|y l IH]; simpl; [reflexivity|].
  destruct (tuple_lt R_lt y x); [|reflexivity].
  rewrite IH. apply perm_swap.
Qed.

Lemma sorted_perm (l : list (nat * R)) : Permutation (sorted R_lt l) l.
Proof.
  induction l as [|x l IH]; simpl; [reflexivity|].
  rewrite insert_sorted_perm. now constructor.
Qed.

Lemma tuple_lt_distinct (a b : nat * R) :
  fst a <> fst b -> tuple_lt R_lt a b = (fst a <? fst b)%nat.
Proof.
  intros Hne. unfold tuple_lt.
  destruct (Nat.eqb_spec (fst a) (fst b)); [contradiction|reflexivity].
Qed.

Lemma insert_sorted_sorted (x : nat * R) (l : list (nat * R)) :
  ~ In (fst x) (map fst l) ->
  StronglySorted index_lt l ->
  StronglySorted index_lt (insert_sorted R_lt x l).
Proof.
  intros Hx Hl. induction Hl as [|y l Hl IH Hy]; simpl.
  - repeat constructor.
  - simpl in Hx.
    assert (fst y <> fst x) as Hne by tauto.
    rewrite (tuple_lt_distinct _ _ Hne).
    destruct (Nat.ltb_spec (fst y) (fst x)) as [Hlt|Hge].
    + constructor; [apply IH; tauto|].
      apply Forall_forall. intros z Hz.
      apply (Permutation_in _ (insert_sorted_perm x l)) in Hz.
      destruct Hz as [<-|Hz]; [exact Hlt|].
      rewrite Forall_forall in Hy. now apply Hy.
    + assert (index_lt x y) as Hxy by (unfold index_lt; lia).
      constructor; [now constructor|].
      constructor; [exact Hxy|].
      rewrite Forall_forall in Hy |- *. intros z Hz.
      specialize (Hy z Hz). unfold index_lt in *. lia.
Qed.

Lemma sorted_sorted (l : list (nat * R)) :
  NoDup (map fst l) -> StronglySorted index_lt (sorted R_lt l).
Proof.
  induction l as [|x l IH]; simpl; intros Hnd; [constructor|].
  inversion Hnd as [|? ? Hx Hnd']; subst.
  apply insert_sorted_sorted; [|now apply IH].
  intros Hin. apply Hx.
  eapply Permutation_in; [|exact Hin].
  apply Permutation_map, sorted_perm.
Qed.

(** Two lists in strictly increasing order of index with the same members
    are the same list. *)
Lemma sorted_unique (l1 l2 : list (nat * R)) :
  StronglySorted index_lt l1 -> StronglySorted index_lt l2 ->
  Permutation l1 l2 -> l1 = l2.
Proof.
  intros H1. revert l2. induction H1 as [|a l1 H1 IH Ha]; intros l2 H2 P.
  - apply Permutation_nil in P. now subst.
  - destruct H2 as [|b l2 H2 Hb].
    + apply Permutation_sym, Permutation_nil in P. discriminate.
    + assert (a = b) as ->.
      { assert (In a (b :: l2)) as Hin
          by (eapply Permutation_in; [exact P|now left]).
        assert (In b (a :: l1)) as Hin'
          by (eapply Permutation_in; [apply Permutation_sym, P|now left]).
        destruct Hin as [->|Hin]; [reflexivity|].
        destruct Hin' as [->|Hin']; [reflexivity|].
        rewrite Forall_forall in Ha, Hb.
        specialize (Ha _ Hin'). specialize (Hb _ Hin).
        unfold index_lt in *. lia. }
      f_equal. apply IH; [exact H2|].
      eapply Permutation_cons_inv. exact P.
Qed.

Lemma sorted_enumerate (funcs : list R) (res : list (nat * R)) :
  Permutation res (enumerate funcs) -> sorted R_lt res = enumerate funcs.
Proof.
  intros P. apply sorted_unique.
  - apply sorted_sorted.
    eapply Permutation_NoDup; [apply Permutation_sym, Permutation_map, P|].
    unfold enumerate. rewrite map_fst_enumerate_from. apply seq_NoDup.
  - apply enumerate_from_sorted.
  - rewrite sorted_perm. exact P.
Qed.
End Gather.

(** C8.  Whatever the order in which the [N] tasks complete, [alive_gather]
    returns the list of their [N] results in the order of the tasks: result
    [i] is the result of task [i]. *)
Theorem alive_gather_input_order (R : Type) (R_lt : R -> R -> bool)
    (results : list R) (completed : list (nat * result R)) :
  as_completed (enumerate (map Ok results)) completed ->
  alive_gather R_lt completed = Ok results.
Proof.
  unfold as_completed, enumerate. intros P.
  rewrite enumerate_from_map_Ok in P.
  destruct (Permutation_map_inv _ _ P) as (res & -> & Pres).
  unfold alive_gather. rewrite await_each_wrap. simpl.
  rewrite (@sorted_enumerate R R_lt results res).
  - unfold enumerate. now rewrite map_snd_enumerate_from.
  - now apply Permutation_sym.
Qed.

Lemma alive_gather_input_order_witness :
  as_completed (enumerate (map Ok [5; 6; 7]))
               [(2%nat, Ok 7); (0%nat, Ok 5); (1%nat, Ok 6)]
  /\ alive_gather N.ltb [(2%nat, Ok 7); (0%nat, Ok 5); (1%nat, Ok 6)] = Ok [5; 6; 7].
Proof.
  assert (as_completed (enumerate (map Ok [5; 6; 7]))
                       [(2%nat, Ok 7); (0%nat, Ok 5); (1%nat, Ok 6)]) as P.
  { unfold as_completed, enumerate. simpl.
    apply Permutation_sym.
    eapply perm_trans; [apply perm_skip, perm_swap|]. apply perm_swap. }
  split; [exact P|].
  exact (alive_gather_input_order N.ltb [5; 6; 7] P).
Defined.

(** ** Request *)

Lemma dict_get_In (d : pydict) (k v : pystr) :
  dict_wf d -> (dict_get d k = Some v <-> In (k, v) d).
Proof.
  unfold dict_wf. induction d as [|[k' v'] d IH]; simpl; intros Hwf.
  - split; [discriminate|tauto].
  - inversion Hwf as [|? ? Hk' Hwf']; subst.
    destruct (pystr_eqb k' k) eqn:E.
    + apply pystr_eqb_eq in E. subst k'. split.
      * intros [= ->]. now left.
      * intros [[= ->]|Hin]; [reflexivity|].
        exfalso. apply Hk'. now apply (in_map fst) in Hin.
    + apply pystr_eqb_neq in E. rewrite (IH Hwf'). split.
      * now right.
      * intros [[= -> ->]|Hin]; [congruence|exact Hin].
Qed.

Lemma dict_wf_NoDup (d : pydict) : dict_wf d -> NoDup d.
Proof. apply NoDup_map_inv. Qed.

Lemma same_items_Permutation (d1 d2 : pydict) :
  dict_wf d1 -> dict_wf d2 -> same_items d1 d2 -> Permutation d1 d2.
Proof.
  intros W1 W2 S.
  apply NoDup_Permutation; try now apply dict_wf_NoDup.
  intros [k v]. rewrite <- !dict_get_In by assumption. now rewrite S.
Qed.

Lemma same_items_dict_eq (d1 d2 : pydict) :
  dict_wf d1 -> dict_wf d2 -> same_items d1 d2 -> dict_eq d1 d2 = true.
Proof.
  intros W1 W2 S. unfold dict_eq. apply andb_true_iff. split.
  - apply Nat.eqb_eq, Permutation_length. now apply same_items_Permutation.
  - apply forallb_forall. intros [k v] Hin. simpl.
    apply dict_get_In in Hin; [|exact W1].
    rewrite <- S, Hin. apply pystr_eqb_refl.
Qed.

Lemma dict_setitem_keys (d : pydict) (k v : pystr) :
  map fst (dict_setitem d k v) =
  if existsb (fun kv => pystr_eqb (fst kv) k) d then map fst d else map fst d ++ [k].
Proof.
  induction d as [|[k' v'] d IH]; simpl; [reflexivity|].
  destruct (pystr_eqb k' k) eqn:E; simpl; [reflexivity|].
  rewrite IH. now destruct (existsb _ d).
Qed.

Lemma dict_setitem_wf (d : pydict) (k v : pystr) :
  dict_wf d -> dict_wf (dict_setitem d k v).
Proof.
  unfold dict_wf. intros W. rewrite dict_setitem_keys.
  destruct (existsb _ d) eqn:E; [exact W|].
  apply NoDup_app; [exact W|repeat constructor; simpl; tauto|].
  intros x Hx [<-|[]].
  apply in_map_iff in Hx. destruct Hx as ([k' v'] & Hk & Hin). simpl in Hk. subst k'.
  assert (existsb (fun kv => pystr_eqb (fst kv) k) d = true); [|congruence].
  apply existsb_exists. exists (k, v'). split; [exact Hin|apply pystr_eqb_refl].
Qed.

Lemma dict_of_wf (items : list (pystr * pystr)) : dict_wf (dict_of items).
Proof.
  unfold dict_of.
  enough (forall d, dict_wf d ->
            dict_wf (fold_left (fun d kv => dict_setitem d (fst kv) (snd kv)) items d)) as E
      by (apply E; constructor).
  induction items as [|kv items IH]; intros d W; simpl; [exact W|].
  apply IH. now apply dict_setitem_wf.
Qed.

Lemma fold_lxor_Permutation (l1 l2 : list Z) :
  Permutation l1 l2 -> fold_right Z.lxor 0%Z l1 = fold_right Z.lxor 0%Z l2.
Proof.
  induction 1 as [|x l l' _ IH|x y l|l l' l'' _ IH1 _ IH2]; simpl.
  - reflexivity.
  - now rewrite IH.
  - rewrite <- !Z.lxor_assoc. f_equal. apply Z.lxor_comm.
  - now rewrite IH1.
Qed.

Section RequestFacts.
Context `{Hashing}.

Lemma hash_frozenset_Permutation (l1 l2 : list Z) :
  Permutation l1 l2 -> hash_frozenset l1 = hash_frozenset l2.
Proof.
  intros P. unfold hash_frozenset.
  rewrite (Permutation_length P).
  f_equal. apply fold_lxor_Permutation. now apply Permutation_map.
Qed.

Lemma hash_frozendict_same_items (d1 d2 : pydict) :
  dict_wf d1 -> dict_wf d2 -> same_items d1 d2 ->
  hash_frozendict d1 = hash_frozendict d2.
Proof.
  intros W1 W2 S. unfold hash_frozendict.
  apply hash_frozenset_Permutation, Permutation_map.
  now apply same_items_Permutation.
Qed.

(** C2.  Two requests with the same method, path, encoding and render flag,
    whose body mappings hold the same items and whose header mappings hold
    the same items, in whatever order the keys were inserted, compare equal
    and have the same hash; a set holding one of them takes the other for
    a member, and a set built from the two holds one request. *)
Theorem Request_equal_fields_equal_hash (r1 r2 : Request) :
  dict_wf (data r1) -> dict_wf (data r2) ->
  dict_wf (headers r1) -> dict_wf (headers r2) ->
  method r1 = method r2 ->
  path r1 = path r2 ->
  same_items (data r1) (data r2) ->
  same_items (headers r1) (headers r2) ->
  encoding r1 = encoding r2 ->
  selenium r1 = selenium r2 ->
  Request_eq r1 r2 = true
  /\ Request_hash r1 = Request_hash r2
  /\ set_of [r1; r2] = [r1].
Proof.
  intros Wd1 Wd2 Wh1 Wh2 Hm Hp Hd Hh He Hs.
  assert (Request_eq r1 r2 = true) as Heq.
  { unfold Request_eq. rewrite Hm, Hp, He, Hs.
    rewrite !pystr_eqb_refl, eqb_reflx.
    now rewrite !same_items_dict_eq. }
  assert (Request_hash r1 = Request_hash r2) as Hhash.
  { unfold Request_hash. rewrite Hm, Hp, He, Hs.
    rewrite (hash_frozendict_same_items Wd1 Wd2 Hd).
    now rewrite (hash_frozendict_same_items Wh1 Wh2 Hh). }
  repeat split; [exact Heq|exact Hhash|].
  unfold set_of, set_add. simpl.
  now rewrite Hhash, Z.eqb_refl, Heq.
Qed.
End RequestFacts.

Lemma Request_equal_fields_equal_hash_witness :
  let r1 := Request_init (lit "https://example.org/search") (lit "post")
              (plain (dict_of [(lit "q", lit "act"); (lit "page", lit "2")]))
              (frozen (dict_of [(lit "Accept", lit "text/html")]))
              (lit "utf-8") false in
  let r2 := Request_init (lit "https://example.org/search") (lit "post")
              (plain (dict_of [(lit "page", lit "2"); (lit "q", lit "act")]))
              (plain (dict_of [(lit "Accept", lit "text/html")]))
              (lit "utf-8") false in
  data r1 <> data r2
  /\ Request_eq r1 r2 = true
  /\ Request_hash r1 = Request_hash r2
  /\ set_of [r1; r2] = [r1].
Proof.
  intros r1 r2. split; [discriminate|].
  apply (Request_equal_fields_equal_hash r1 r2);
    try apply dict_of_wf; try reflexivity; [|intros k; reflexivity].
  intros k. simpl.
  destruct (pystr_eqb (lit "q") k) eqn:E1, (pystr_eqb (lit "page") k) eqn:E2;
    try reflexivity.
  apply pystr_eqb_eq in E1, E2. rewrite <- E1 in E2. cbv in E2. discriminate E2.
Defined.

(** ** Response *)

Section ResponseFacts.
Context `{Parsers}.

Lemma bind_Ok {A B} (m : result A) (k : A -> result B) (b : B) :
  bind m k = Ok b -> exists a, m = Ok a /\ k a = Ok b.
Proof. destruct m; simpl; [eauto|discriminate]. Qed.

Lemma get_step (v : view) (w w1 : interp) (r r1 : Response) (i : nat) :
  get v w r = Ok (i, w1, r1) -> step v w r i w1 r1.
Proof.
  destruct v; simpl; unfold Response_html, Response_text, Response_stream, Response_json.
  - destruct (cache_text r) as [o|] eqn:Ct.
    + intros [= <- <- <-]. now constructor.
    + destruct (bytes_decode (body r) (resp_encoding r)) as [t|e]; simpl; [|discriminate].
      intros [= <- <- <-]. now constructor.
  - destruct (cache_text r) as [o|] eqn:Ct.
    + simpl. intros [= <- <- <-]. now apply step_html_hit with o.
    + destruct (bytes_decode (body r) (resp_encoding r)) as [t|e]; simpl; [|discriminate].
      intros [= <- <- <-]. now apply step_html_miss.
  - intros [= <- <- <-]. constructor.
  - destruct (cache_json r) as [o|] eqn:Cj.
    + intros [= <- <- <-]. now constructor.
    + destruct (orjson_loads (body r)) as [j|e]; simpl; [|discriminate].
      intros [= <- <- <-]. now constructor.
Qed.

Lemma gets_cons (v : view) (vs : list view) (w w' : interp) (r r' : Response)
    (ids : list nat) :
  gets (v :: vs) w r = Ok (ids, w', r') ->
  exists i w1 r1 ids',
    get v w r = Ok (i, w1, r1) /\ gets vs w1 r1 = Ok (ids', w', r') /\ ids = i :: ids'.
Proof.
  simpl. intros E.
  apply bind_Ok in E. destruct E as ([[i w1] r1] & E1 & E).
  apply bind_Ok in E. destruct E as ([[ids' w2] r2] & E2 & E).
  injection E as <- <- <-. now exists i, w1, r1, ids'.
Qed.

Lemma gets_text_cached (vs : list view) :
  forall w r o ids w' r',
    cache_text r = Some o ->
    gets vs w r = Ok (ids, w', r') ->
    cache_text r' = Some o
    /\ (forall i, In i (ids_of Text vs ids) -> i = oid o)
    /\ times Text (computed w') = times Text (computed w).
Proof.
  induction vs as [|v vs IH]; intros w r o ids w' r' Ho E.
  - injection E as <- <- <-. repeat split; [exact Ho|intros i []].
  - apply gets_cons in E. destruct E as (i & w1 & r1 & ids' & E1 & E2 & ->).
    apply get_step in E1.
    inversion E1; subst; same_cache; try congruence;
      (eapply IH in E2; [|eassumption]);
      destruct E2 as (Hc & Hi & Ht); (split; [exact Hc|]);
      (split; [|exact Ht]); unfold ids_of; simpl; try exact Hi.
    intros i [<-|Hin]; [reflexivity|now apply Hi].
Qed.

Lemma gets_json_cached (vs : list view) :
  forall w r o ids w' r',
    cache_json r = Some o ->
    gets vs w r = Ok (ids, w', r') ->
    cache_json r' = Some o
    /\ (forall i, In i (ids_of Json vs ids) -> i = oid o)
    /\ times Json (computed w') = times Json (computed w).
Proof.
  induction vs as [|v vs IH]; intros w r o ids w' r' Ho E.
  - injection E as <- <- <-. repeat split; [exact Ho|intros i []].
  - apply gets_cons in E. destruct E as (i & w1 & r1 & ids' & E1 & E2 & ->).
    apply get_step in E1.
    inversion E1; subst; same_cache; try congruence;
      (eapply IH in E2; [|eassumption]);
      destruct E2 as (Hc & Hi & Ht); (split; [exact Hc|]);
      (split; [|exact Ht]); unfold ids_of; simpl; try exact Hi.
    intros i [<-|Hin]; [reflexivity|now apply Hi].
Qed.

Lemma all_equal_cons (i : nat) (l : list nat) :
  (forall j, In j l -> j = i) ->
  forall a b, In a (i :: l) -> In b (i :: l) -> a = b.
Proof.
  intros Hl a b [<-|Ha] [<-|Hb]; auto.
  - symmetry. auto.
  - rewrite (Hl a Ha), (Hl b Hb). reflexivity.
Qed.

Lemma gets_counts (vs : list view) :
  forall w r ids w' r',
    gets vs w r = Ok (ids, w', r') ->
    body r' = body r
    /\ times Text (computed w') =
       (times Text (computed w)
        + match cache_text r with
          | Some _ => 0
          | None => if reads_text vs then 1 else 0
          end)%nat
    /\ times Json (computed w') =
       (times Json (computed w)
        + match cache_json r with
          | Some _ => 0
          | None => if existsb (view_eqb Json) vs then 1 else 0
          end)%nat
    /\ times Html (computed w') = (times Html (computed w) + times Html vs)%nat
    /\ times Stream (computed w') = (times Stream (computed w) + times Stream vs)%nat.
Proof.
  induction vs as [|v vs IH]; intros w r ids w' r' E.
  - injection E as <- <- <-. unfold times, reads_text. simpl.
    destruct (cache_text r), (cache_json r); repeat split; lia.
  - apply gets_cons in E. destruct E as (i & w1 & r1 & ids' & E1 & E2 & ->).
    apply get_step in E1.
    destruct (IH _ _ _ _ _ E2) as (Hb & Ht & Hj & Hh & Hs).
    unfold times, reads_text in *.
    inversion E1; subst; simpl in *;
      repeat match goal with
             | Hc : cache_text _ = _ |- _ => rewrite Hc in *
             | Hc : cache_json _ = _ |- _ => rewrite Hc in *
             end;
      repeat split; try assumption; try lia.
Qed.

Lemma gets_text_ids (vs : list view) :
  forall w r ids w' r',
    gets vs w r = Ok (ids, w', r') ->
    forall i j, In i (ids_of Text vs ids) -> In j (ids_of Text vs ids) -> i = j.
Proof.
  induction vs as [|v vs IH]; intros w r ids w' r' E.
  - injection E as <- <- <-. intros i j [].
  - apply gets_cons in E. destruct E as (i & w1 & r1 & ids' & E1 & E2 & ->).
    apply get_step in E1.
    inversion E1; subst; unfold ids_of; simpl;
      try exact (IH _ _ _ _ _ E2).
    + apply all_equal_cons. now apply (gets_text_cached vs _ _ H0 E2).
    + apply all_equal_cons.
      assert (cache_text (store_text r {| oid := next_id w; oval := t |})
              = Some {| oid := next_id w; oval := t |}) as Hc by reflexivity.
      exact (proj1 (proj2 (gets_text_cached vs _ _ Hc E2))).
Qed.

Lemma gets_json_ids (vs : list view) :
  forall w r ids w' r',
    gets vs w r = Ok (ids, w', r') ->
    forall i j, In i (ids_of Json vs ids) -> In j (ids_of Json vs ids) -> i = j.
Proof.
  induction vs as [|v vs IH]; intros w r ids w' r' E.
  - injection E as <- <- <-. intros i j [].
  - apply gets_cons in E. destruct E as (i & w1 & r1 & ids' & E1 & E2 & ->).
    apply get_step in E1.
    inversion E1; subst; unfold ids_of; simpl;
      try exact (IH _ _ _ _ _ E2).
    + apply all_equal_cons. now apply (gets_json_cached vs _ _ H0 E2).
    + apply all_equal_cons.
      assert (cache_json (store_json r {| oid := next_id w; oval := j |})
              = Some {| oid := next_id w; oval := j |}) as Hc by reflexivity.
      exact (proj1 (proj2 (gets_json_cached vs _ _ Hc E2))).
Qed.
End ResponseFacts.

(** C9 (as amended).  Over any accesses to a response, the decoded text and
    the parsed JSON are each computed once, on the first access that needs
    them, and every access to either obtains the one stored object; the HTML
    tree and the byte stream are built anew on each access, the tree from the
    stored text; the byte payload stays as it was. *)
Theorem Response_views_computed `{Parsers} (content : list Byte.byte)
    (encoding type : pystr) (status : Z) (w w' : interp) (vs : list view)
    (ids : list nat) (r' : Response) :
  gets vs w (Response_init content encoding type status) = Ok (ids, w', r') ->
  times Text (computed w')
  = (times Text (computed w) + if reads_text vs then 1 else 0)%nat
  /\ times Json (computed w')
     = (times Json (computed w) + if existsb (view_eqb Json) vs then 1 else 0)%nat
  /\ (forall i j, In i (ids_of Text vs ids) -> In j (ids_of Text vs ids) -> i = j)
  /\ (forall i j, In i (ids_of Json vs ids) -> In j (ids_of Json vs ids) -> i = j)
  /\ times Html (computed w') = (times Html (computed w) + times Html vs)%nat
  /\ times Stream (computed w') = (times Stream (computed w) + times Stream vs)%nat
  /\ body r' = content.
Proof.
  intros E.
  destruct (gets_counts _ _ _ E) as (Hb & Ht & Hj & Hh & Hs).
  simpl in Ht, Hj, Hb.
  repeat split; try assumption.
  - exact (gets_text_ids _ _ _ E).
  - exact (gets_json_ids _ _ _ E).
Qed.

Lemma Response_views_computed_witness :
  match gets [Html; Text; Json; Stream; Html; Json; Text]
             {| next_id := 0; computed := [] |}
             (Response_init [Byte.x7b; Byte.x7d] (lit "utf-8") (lit "text/html") 200%Z)
  with
  | Ok (ids, w', r') =>
      ids = [1; 0; 2; 3; 4; 2; 0]%nat
      /\ times Text (computed w') = 1%nat
      /\ times Json (computed w') = 1%nat
      /\ times Html (computed w') = 2%nat
      /\ body r' = [Byte.x7b; Byte.x7d]
  | Raise _ => False
  end.
Proof.
  destruct (gets _ _ _) as [[[ids w'] r']|e] eqn:E.
  - destruct (Response_views_computed _ _ _ _ _ _ E) as (Ht & Hj & _ & _ & Hh & _ & Hb).
    repeat split; try assumption.
    vm_compute in E. now injection E.
  - vm_compute in E. discriminate E.
Defined.

(** C9 as stated does not hold: two accesses to [html] parse the text
    twice. *)
Lemma Response_html_computed_twice :
  ~ (forall (P : Parsers) (v : view), computed_once v).
Proof.
  intros claim.
  specialize (claim example_parsers Html [] (lit "utf-8") (lit "text/html") 200%Z
                {| next_id := 0; computed := [] |} [Html; Html]).
  specialize (claim _ _ _ eq_refl).
  vm_compute in claim. lia.
Qed.

(** ** The matcher *)

Section MatcherFacts.
Variable p : N -> bool.
Variable k : bool -> pystr -> pystr -> option (pystr * pystr).
Variable Q : pystr -> pystr -> pystr -> Prop.

Hypothesis k_sound : forall adv b s b' s',
  k adv b s = Some (b', s') ->
  exists m, s = m ++ s' /\ b' = rev m ++ b /\ Q b m s' /\ (adv = true -> m <> []).

Lemma k_sound_split : forall adv b s b' s',
  k adv b s = Some (b', s') ->
  exists m1 m2,
    s = (m1 ++ m2) ++ s' /\ forallb p m1 = true /\ b' = rev (m1 ++ m2) ++ b
    /\ Q (rev m1 ++ b) m2 s' /\ (adv = true -> m1 ++ m2 <> []).
Proof.
  intros adv b s b' s' E. apply k_sound in E.
  destruct E as (m & -> & -> & HQ & Hadv). now exists [], m.
Qed.

Lemma greedy_sound (s : pystr) : forall adv b b' s',
  greedy p k adv b s = Some (b', s') ->
  exists m1 m2,
    s = (m1 ++ m2) ++ s' /\ forallb p m1 = true /\ b' = rev (m1 ++ m2) ++ b
    /\ Q (rev m1 ++ b) m2 s' /\ (adv = true -> m1 ++ m2 <> []).
Proof.
  induction s as [|c s IH]; intros adv b b' s' E; simpl in E.
  - now apply k_sound_split.
  - destruct (p c) eqn:Pc; [|now apply k_sound_split].
    destruct (greedy p k false (c :: b) s) as [[b1 s1]|] eqn:G.
    + injection E as <- <-.
      destruct (IH _ _ _ _ G) as (m1 & m2 & -> & Hp & -> & HQ & _).
      exists (c :: m1), m2. simpl. rewrite Pc, Hp.
      repeat split; try discriminate.
      * now rewrite <- !app_assoc.
      * now rewrite <- app_assoc.
    + now apply k_sound_split.
Qed.

Hypothesis k_complete : forall adv b m rest,
  Q b m rest -> (adv = true -> m <> []) -> k adv b (m ++ rest) <> None.

End MatcherFacts.

Lemma match_here_sound (r : regex) : forall adv b s b' s',
  match_here r adv b s = Some (b', s') ->
  exists m, s = m ++ s' /\ b' = rev m ++ b /\ accepts r b m s'
            /\ (adv = true -> m <> []).
Proof.
  induction r as [|a r IH]; intros adv b s b' s' E; simpl in E.
  - destruct adv; [discriminate|]. injection E as <- <-.
    exists []. repeat split. discriminate.
  - destruct a as [p|p|p|p|p| |].
    + destruct s as [|c s]; [discriminate|].
      destruct (p c) eqn:Pc; [|discriminate].
      destruct (IH _ _ _ _ _ E) as (m & -> & -> & Hacc & _).
      exists (c :: m). simpl. rewrite <- app_assoc.
      repeat split; try discriminate. now exists c, m.
    + destruct (greedy_sound p (match_here r) (accepts r) (IH) _ _ _ E)
        as (m1 & m2 & -> & Hp & -> & Hacc & Hadv).
      exists (m1 ++ m2). repeat split; try assumption. now exists m1, m2.
    + destruct s as [|c s]; [discriminate|].
      destruct (p c) eqn:Pc; [|discriminate].
      destruct (greedy_sound p (match_here r) (accepts r) (IH) _ _ _ E)
        as (m1 & m2 & -> & Hp & -> & Hacc & _).
      exists (c :: m1 ++ m2). simpl. rewrite <- !app_assoc.
      repeat split; try discriminate.
      exists (c :: m1), m2. simpl. rewrite Pc, Hp, <- app_assoc.
      repeat split; try assumption. discriminate.
    + destruct b as [|c b]; [discriminate|].
      destruct (p c) eqn:Pc; [|discriminate].
      destruct (IH _ _ _ _ _ E) as (m & -> & -> & Hacc & Hadv).
      exists m. repeat split; try assumption. now exists c, b.
    + destruct s as [|c s]; [discriminate|].
      destruct (p c) eqn:Pc; [|discriminate].
      destruct (IH _ _ _ _ _ E) as (m & Hs & -> & Hacc & Hadv).
      exists m. repeat split; try assumption. exists c, s. now rewrite <- Hs.
    + destruct b as [|c b]; [|discriminate].
      destruct (IH _ _ _ _ _ E) as (m & -> & -> & Hacc & Hadv).
      exists m. repeat split; assumption.
    + assert (s = [] \/ s = [LF]) as Hs.
      { destruct s as [|c [|d s]]; [now left| |discriminate].
        destruct (N.eqb_spec c LF); [subst; now right|discriminate]. }
      assert (match_here r adv b s = Some (b', s')) as E'.
      { destruct Hs as [->| ->]; exact E. }
      destruct (IH _ _ _ _ _ E') as (m & Hm & -> & Hacc & Hadv).
      exists m. repeat split; try assumption. now rewrite <- Hm.
Qed.


(** ** The substitution loop *)


Lemma sub_from_no_match (r : regex) (repl : pystr) (s : pystr) :
  forall fuel b,
    (forall u w, s = u ++ w -> match_here r false (rev u ++ b) w = None) ->
    sub_from fuel r repl false b s = s.
Proof.
  induction s as [|c s IH]; intros fuel b Hno; destruct fuel as [|fuel];
    try reflexivity; simpl.
  - pose proof (Hno [] [] eq_refl) as E. simpl in E. now rewrite E.
  - pose proof (Hno [] (c :: s) eq_refl) as E. simpl in E. rewrite E.
    f_equal. apply IH.
    intros u w ->. specialize (Hno (c :: u) w eq_refl).
    simpl in Hno. now rewrite <- app_assoc in Hno.
Qed.

(** The loop of [re.sub] takes at most two turns per character and two at the
    end: from that fuel on, more fuel changes nothing. *)
Lemma sub_from_fuel_enough (r : regex) (repl : pystr) (fuel : nat) :
  forall (fuel' : nat) (adv : bool) (b s : pystr),
    (2 * length s + (if adv then 1 else 2) <= fuel)%nat ->
    (2 * length s + (if adv then 1 else 2) <= fuel')%nat ->
    sub_from fuel r repl adv b s = sub_from fuel' r repl adv b s.
Proof.
  induction fuel as [|fuel IH]; intros fuel' adv b s Hf Hf'.
  - destruct adv; lia.
  - destruct fuel' as [|fuel']; [destruct adv; lia|].
    simpl. destruct (match_here r adv b s) as [[b' s']|] eqn:E.
    + apply match_here_sound in E. destruct E as (m & -> & _ & _ & Hadv).
      f_equal. rewrite length_app in *.
      destruct m as [|c m].
      * destruct adv; [exfalso; now apply Hadv|].
        simpl length in *. rewrite Nat.eqb_refl. apply IH; simpl; lia.
      * replace (length s' =? length (c :: m) + length s')%nat with false
          by (symmetry; apply Nat.eqb_neq; simpl; lia).
        simpl length in *. apply IH; destruct adv; lia.
    + destruct s as [|c s]; [reflexivity|].
      f_equal. simpl length in *. apply IH; destruct adv; lia.
Qed.

Lemma re_sub_more_fuel (r : regex) (repl s : pystr) (extra : nat) :
  sub_from (2 * length s + 2 + extra) r repl false [] s = re_sub r repl s.
Proof. unfold re_sub. apply sub_from_fuel_enough; lia. Qed.

(** *** [re.sub(r'\s+', ' ', s)] *)

Lemma greedy_all (p : N -> bool) (s : pystr) : forall b,
  greedy p (match_here []) false b s
  = Some (rev (take_while p s) ++ b, drop_while p s).
Proof.
  induction s as [|c s IH]; intros b; simpl; [reflexivity|].
  destruct (p c); [|reflexivity].
  rewrite IH. simpl. now rewrite <- app_assoc.
Qed.

Lemma drop_while_length (p : N -> bool) (s : pystr) :
  (length (drop_while p s) <= length s)%nat.
Proof.
  induction s as [|c s IH]; simpl; [lia|]. destruct (p c); simpl; lia.
Qed.

Lemma collapse_in_run (s : pystr) :
  collapse true s = collapse false (drop_while is_space s).
Proof.
  induction s as [|c s IH]; simpl; [reflexivity|].
  destruct (is_space c) eqn:E; [exact IH|]. simpl. now rewrite E.
Qed.

Lemma sub_from_whitespace (fuel : nat) : forall s b,
  (length s <= fuel)%nat ->
  sub_from fuel [Many1 is_space] [SPACE] false b s = collapse false s.
Proof.
  induction fuel as [|fuel IH]; intros s b Hl.
  - destruct s; [reflexivity|simpl in Hl; lia].
  - destruct s as [|c s]; [reflexivity|]. simpl in Hl |- *.
    destruct (is_space c) eqn:E.
    + rewrite greedy_all.
      pose proof (drop_while_length is_space s) as Hd.
      replace (length (drop_while is_space s) =? S (length s))%nat with false
        by (symmetry; apply Nat.eqb_neq; lia).
      simpl. f_equal. rewrite IH by lia. symmetry. apply collapse_in_run.
    + f_equal. apply IH. lia.
Qed.

Lemma re_sub_whitespace (s : pystr) :
  re_sub [Many1 is_space] (lit " ") s = collapse false s.
Proof. unfold re_sub. apply sub_from_whitespace. lia. Qed.

Lemma str_split_ws_cons (c : N) (s : pystr) :
  str_split_ws (c :: s) =
  if is_space c then str_split_ws s
  else match s with
       | [] => [[c]]
       | d :: _ =>
           if is_space d then [c] :: str_split_ws s
           else match str_split_ws s with
                | w :: ws => (c :: w) :: ws
                | [] => [[c]]
                end
       end.
Proof. reflexivity. Qed.

Lemma str_split_ws_collapse (s : pystr) : forall in_run,
  str_split_ws (collapse in_run s) = str_split_ws s.
Proof.
  induction s as [|c s IH]; intros in_run; [reflexivity|].
  rewrite (str_split_ws_cons c s). simpl collapse.
  destruct (is_space c) eqn:E.
  - destruct in_run; [apply IH|].
    rewrite str_split_ws_cons. change (is_space SPACE) with true. apply IH.
  - rewrite str_split_ws_cons, E.
    destruct s as [|d s]; [reflexivity|].
    specialize (IH false). simpl collapse in IH |- *.
    destruct (is_space d) eqn:Ed.
    + change (is_space SPACE) with true. cbv iota. now rewrite IH.
    + rewrite Ed. now rewrite IH.
Qed.

Lemma concat_str_split_ws (s : pystr) : concat (str_split_ws s) = non_space s.
Proof.
  unfold non_space.
  induction s as [|c s IH]; [reflexivity|].
  rewrite str_split_ws_cons. simpl filter.
  destruct (is_space c) eqn:E; simpl; [exact IH|].
  destruct s as [|d s]; [reflexivity|].
  remember (d :: s) as s' eqn:Es.
  destruct (is_space d) eqn:Ed.
  - cbn [concat app]. now rewrite IH.
  - destruct (str_split_ws s') as [|w ws]; cbn [concat app] in IH |- *;
      now rewrite <- IH.
Qed.

Lemma non_space_app (a b : pystr) : non_space (a ++ b) = non_space a ++ non_space b.
Proof. apply filter_app. Qed.

Lemma non_space_str_join (parts : list pystr) :
  non_space (str_join (lit " ") parts) = non_space (concat parts).
Proof.
  induction parts as [|p parts IH]; [reflexivity|].
  destruct parts as [|q parts].
  - simpl. now rewrite app_nil_r.
  - change (str_join (lit " ") (p :: q :: parts))
      with (p ++ [SPACE] ++ str_join (lit " ") (q :: parts)).
    change (concat (p :: q :: parts)) with (p ++ concat (q :: parts)).
    rewrite !non_space_app, IH. reflexivity.
Qed.

Lemma non_space_idem (s : pystr) : non_space (non_space s) = non_space s.
Proof.
  unfold non_space. induction s as [|c s IH]; simpl; [reflexivity|].
  destruct (is_space c) eqn:E; simpl; [exact IH|]. now rewrite E, IH.
Qed.

Lemma non_space_words (s : pystr) :
  non_space (str_join (lit " ") (str_split_ws s)) = non_space s.
Proof.
  now rewrite non_space_str_join, concat_str_split_ws, non_space_idem.
Qed.

(** C6.  For the type 'decision', [format_citation] returns the words of the
    HTML-unescaped title joined by single spaces, for every jurisdiction,
    mapped or not: nothing is appended, and the characters of the result
    other than whitespace are those of the unescaped title. *)
Theorem format_citation_decision `{Runtime} (title jurisdiction : pystr) :
  format_citation title (lit "decision") jurisdiction
  = Ok (str_join (lit " ") (str_split_ws (html_unescape title)))
  /\ non_space (str_join (lit " ") (str_split_ws (html_unescape title)))
     = non_space (html_unescape title).
Proof.
  split; [|apply non_space_words].
  unfold format_citation.
  change (negb (pystr_eqb (lit "decision") (lit "decision"))) with false.
  cbv iota. unfold bind.
  now rewrite re_sub_whitespace, str_split_ws_collapse.
Qed.

(** ** format_citation *)

Lemma hd_str_split (s sep : pystr) :
  hd [] (str_split s sep) = before_first sep s.
Proof.
  unfold str_split. induction s as [|c s IH]; [reflexivity|].
  cbn [split_go before_first].
  destruct (starts_with sep (c :: s)); [reflexivity|].
  rewrite <- IH. now destruct (split_go sep 0 s).
Qed.

Lemma before_first_found (sep s : pystr) :
  before_first sep s = s \/ exists rest, s = before_first sep s ++ sep ++ rest.
Proof.
  induction s as [|c s IH]; [now left|].
  cbn [before_first]. destruct (starts_with sep (c :: s)) eqn:E.
  - right. apply starts_with_prefix in E. destruct E as [rest E].
    exists rest. now rewrite E.
  - destruct IH as [IH|[rest IH]].
    + left. now rewrite IH.
    + right. exists rest. simpl. now rewrite <- IH.
Qed.

Lemma before_first_none_inside (sep s : pystr) :
  forall u v, before_first sep s = u ++ v -> v <> [] ->
              starts_with sep (skipn (length u) s) = false.
Proof.
  induction s as [|c s IH]; intros u v E Hv.
  - destruct u, v; simpl in E; congruence.
  - cbn [before_first] in E. destruct (starts_with sep (c :: s)) eqn:Es.
    + destruct u, v; simpl in E; congruence.
    + destruct u as [|a u]; [exact Es|].
      simpl in E. injection E as <- E. simpl. now apply (IH u v).
Qed.

Lemma str_split_ws_word (w : pystr) :
  w <> [] -> forallb (fun c => negb (is_space c)) w = true ->
  str_split_ws w = [w].
Proof.
  induction w as [|c w IH]; intros Hne Hw; [congruence|].
  simpl in Hw. apply andb_true_iff in Hw. destruct Hw as [Hc Hw].
  apply negb_true_iff in Hc.
  rewrite str_split_ws_cons, Hc.
  destruct w as [|d w]; [reflexivity|].
  rewrite IH by (assumption || discriminate).
  simpl in Hw. apply andb_true_iff in Hw. destruct Hw as [Hd _].
  apply negb_true_iff in Hd. now rewrite Hd.
Qed.

Lemma str_split_ws_nonempty (c : N) (s : pystr) :
  is_space c = false -> str_split_ws (c :: s) <> [].
Proof.
  intros Hc. rewrite str_split_ws_cons, Hc.
  destruct s as [|d s]; [discriminate|].
  destruct (is_space d); [discriminate|].
  destruct (str_split_ws (d :: s)); discriminate.
Qed.

Lemma str_split_ws_app_word (w : pystr) :
  w <> [] -> forallb (fun c => negb (is_space c)) w = true ->
  forall x, str_split_ws (x ++ SPACE :: w) = str_split_ws x ++ [w].
Proof.
  intros Hne Hw x. induction x as [|c x IH].
  - simpl app. rewrite str_split_ws_cons. change (is_space SPACE) with true.
    cbv iota. now apply str_split_ws_word.
  - change ((c :: x) ++ SPACE :: w) with (c :: (x ++ SPACE :: w)).
    rewrite !str_split_ws_cons.
    destruct (is_space c) eqn:Ec; [exact IH|].
    destruct x as [|d x].
    + simpl app. change (is_space SPACE) with true. cbv iota.
      rewrite str_split_ws_cons. change (is_space SPACE) with true. cbv iota.
      now rewrite str_split_ws_word.
    + change ((d :: x) ++ SPACE :: w) with (d :: (x ++ SPACE :: w)) in *.
      destruct (is_space d) eqn:Ed; rewrite ?Ed.
      * now rewrite IH.
      * rewrite IH.
        pose proof (@str_split_ws_nonempty d x Ed) as Hx.
        destruct (str_split_ws (d :: x)); [congruence|reflexivity].
Qed.


Section CitationFacts.
Context `{Runtime}.

Lemma No_number_accepts (b m rest : pystr) :
  accepts No_number b m rest <-> No_suffixed (m ++ rest) [] rest.
Proof.
  unfold No_number, No_suffixed.
  change (chars (lit " No")) with [One (N.eqb 32); One (N.eqb 78); One (N.eqb 111)].
  cbn [app accepts]. split.
  - intros (c1 & m1 & -> & E1 & c2 & m2 & -> & E2 & c3 & m3 & -> & E3
            & ws & m4 & -> & Hws & Fws & ds & m5 & -> & Hds & Fds & Hend & ->).
    apply N.eqb_eq in E1, E2, E3. subst c1 c2 c3.
    exists ws, ds. rewrite app_nil_r in *. simpl in Hend.
    repeat split; try assumption. simpl. now rewrite <- !app_assoc.
  - intros (ws & ds & E & Hws & Fws & Hds & Fds & Hend).
    assert (m = lit " No" ++ ws ++ ds) as ->.
    { apply (app_inv_tail rest). rewrite E. simpl. now rewrite <- !app_assoc. }
    exists 32, (78 :: 111 :: ws ++ ds). repeat split.
    exists 78, (111 :: ws ++ ds). repeat split.
    exists 111, (ws ++ ds). repeat split.
    exists ws, ds. repeat split; try assumption.
    exists ds, []. rewrite app_nil_r. repeat split; assumption.
Qed.





Lemma No_number_match (b s b' s' : pystr) :
  match_here No_number false b s = Some (b', s') -> No_suffixed s [] s'.
Proof.
  intros E. apply match_here_sound in E.
  destruct E as (m & -> & _ & Hacc & _). now apply No_number_accepts in Hacc.
Qed.



(** A text without such a suffix is left as it is. *)
Lemma re_sub_No_number_keeps (t : pystr) :
  (forall p nl, ~ No_suffixed t p nl) -> re_sub No_number [] t = t.
Proof.
  intros Hno. unfold re_sub. apply sub_from_no_match.
  intros u w ->.
  destruct (match_here No_number false (rev u ++ []) w) as [[b1 s1]|] eqn:E1;
    [|reflexivity].
  exfalso. apply No_number_match in E1.
  apply (Hno u s1).
  destruct E1 as (ws & ds & -> & Hrest). now exists ws, ds.
Qed.
End CitationFacts.

Lemma dict_get_Some_In (d : pydict) (k v : pystr) :
  dict_get d k = Some v -> In (k, v) d.
Proof.
  induction d as [|[k' v'] d IH]; simpl; [discriminate|].
  destruct (pystr_eqb k' k) eqn:E.
  - apply pystr_eqb_eq in E. intros [= ->]. subst. now left.
  - intros Hd. right. now apply IH.
Qed.

Lemma JURISDICTIONS_abbreviations (jurisdiction a : pystr) :
  dict_get JURISDICTIONS jurisdiction = Some a ->
  paren a <> [] /\ forallb (fun c => negb (is_space c)) (paren a) = true.
Proof.
  intros Hj. apply dict_get_Some_In in Hj.
  split; [discriminate|].
  assert (Forall (fun kv => forallb (fun c => negb (is_space c)) (paren (snd kv)) = true)
                 JURISDICTIONS) as Hall
      by (repeat constructor).
  rewrite Forall_forall in Hall. exact (Hall _ Hj).
Qed.





(** ** clean_text *)

Lemma sub_from_In (r : regex) (repl : pystr) (c : N) (fuel : nat) :
  forall adv b s, In c (sub_from fuel r repl adv b s) -> In c repl \/ In c s.
Proof.
  induction fuel as [|fuel IH]; intros adv b s Hin; simpl in Hin; [now right|].
  destruct (match_here r adv b s) as [[b' s']|] eqn:E.
  - apply match_here_sound in E. destruct E as (m & -> & _).
    apply in_app_or in Hin. destruct Hin as [Hin|Hin]; [now left|].
    apply IH in Hin. destruct Hin as [Hin|Hin]; [now left|].
    right. apply in_or_app. now right.
  - destruct s as [|d s]; [destruct Hin|].
    destruct Hin as [<-|Hin]; [right; now left|].
    apply IH in Hin. destruct Hin as [Hin|Hin]; [now left|]. right. now right.
Qed.

Lemma re_sub_In (r : regex) (repl s : pystr) (c : N) :
  In c (re_sub r repl s) -> In c repl \/ In c s.
Proof. apply sub_from_In. Qed.

Lemma replace_go_In (old new : pystr) (c : N) (s : pystr) :
  forall skip, In c (replace_go old new skip s) -> In c new \/ In c s.
Proof.
  induction s as [|d s IH]; intros skip Hin; simpl in Hin; [destruct Hin|].
  destruct skip as [|skip].
  - destruct (starts_with old (d :: s)).
    + apply in_app_or in Hin. destruct Hin as [Hin|Hin]; [now left|].
      apply IH in Hin. destruct Hin; [now left|right; now right].
    + destruct Hin as [<-|Hin]; [right; now left|].
      apply IH in Hin. destruct Hin; [now left|right; now right].
  - apply IH in Hin. destruct Hin; [now left|right; now right].
Qed.

Lemma str_replace_NBSP (s : pystr) : ~ In NBSP (str_replace [NBSP] [SPACE] s).
Proof.
  unfold str_replace. induction s as [|d s IH]; [intros []|].
  cbn [replace_go starts_with length Nat.sub]. rewrite andb_true_r.
  destruct (N.eqb_spec NBSP d) as [<-|Hd].
  - intros [Hin|Hin]; [discriminate Hin|tauto].
  - intros [Hin|Hin]; [congruence|tauto].
Qed.

(** X1.  The text cleaned by [clean_text] holds no non-breaking space. *)
Lemma clean_text_no_NBSP (text : pystr) : ~ In NBSP (clean_text text).
Proof.
  unfold clean_text. intros Hin.
  apply re_sub_In in Hin. destruct Hin as [[Hin|[]]|Hin]; [discriminate Hin|].
  apply re_sub_In in Hin. destruct Hin as [[]|Hin].
  apply re_sub_In in Hin. destruct Hin as [[]|Hin].
  apply re_sub_In in Hin. destruct Hin as [[Hin|[]]|Hin]; [discriminate Hin|].
  apply replace_go_In in Hin. destruct Hin as [[Hin|[]]|Hin]; [discriminate Hin|].
  now apply str_replace_NBSP in Hin.
Qed.

(** C4.  [clean_text] at three texts: a carriage return before a line feed
    stays (the literal replaced is the four characters backslash, r,
    backslash, n); a line of one space between two lines becomes two empty
    lines, so that three lines come out as four; and the spaces that end the
    last line stay. *)
Theorem clean_text_line_endings :
  clean_text (lit "a" ++ [CR; LF] ++ lit "b") = lit "a" ++ [CR; LF] ++ lit "b"
  /\ clean_text (lit "a\r\nb") = lit "a" ++ [LF] ++ lit "b"
  /\ clean_text (lit "a" ++ [LF; SPACE; LF] ++ lit "b") = lit "a" ++ [LF; LF; LF] ++ lit "b"
  /\ length (lines (lit "a" ++ [LF; SPACE; LF] ++ lit "b")) = 3%nat
  /\ length (lines (clean_text (lit "a" ++ [LF; SPACE; LF] ++ lit "b"))) = 4%nat
  /\ clean_text (lit "a " ++ [LF] ++ lit "b ") = lit "a" ++ [LF] ++ lit "b ".
Proof. repeat split; reflexivity. Qed.

(** C5.  [clean_text] applied twice to the two lines "a" and "b" with an
    empty line between them differs from [clean_text] applied once: each
    application adds an empty line. *)
Theorem clean_text_twice :
  clean_text (lit "a" ++ [LF; LF] ++ lit "b") = lit "a" ++ [LF; LF; LF] ++ lit "b"
  /\ clean_text (clean_text (lit "a" ++ [LF; LF] ++ lit "b"))
     = lit "a" ++ [LF; LF; LF; LF] ++ lit "b"
  /\ clean_text (clean_text (lit "a" ++ [LF; LF] ++ lit "b"))
     <> clean_text (lit "a" ++ [LF; LF] ++ lit "b").
Proof. repeat split; try reflexivity. discriminate. Qed.

(** ** make_doc and make_section *)

Lemma sub_from_delete (p : N -> bool) (fuel : nat) : forall s b,
  (length s <= fuel)%nat ->
  sub_from fuel [One p] [] false b s = filter (fun c => negb (p c)) s.
Proof.
  induction fuel as [|fuel IH]; intros s b Hl.
  - destruct s; [reflexivity|simpl in Hl; lia].
  - destruct s as [|c s]; [reflexivity|]. simpl in Hl |- *.
    destruct (p c); simpl.
    + replace (length s =? S (length s))%nat with false
        by (symmetry; apply Nat.eqb_neq; lia).
      apply IH. lia.
    + f_equal. apply IH. lia.
Qed.

Section DocumentFacts.
Context `{Runtime}.

Lemma too_short_word_characters (text : pystr) :
  too_short text = (length (filter is_word text) <? 9)%nat.
Proof.
  unfold too_short, re_sub. rewrite sub_from_delete by lia.
  f_equal. f_equal. apply filter_ext. intros c. unfold is_nonword.
  apply negb_involutive.
Qed.

(** Once the citation is formatted, [make_doc] returns [None] with a warning
    when the cleaned text has fewer than nine word characters (letters,
    digits, underscores), and a document otherwise. *)
Lemma make_doc_outcome (now version_id type jurisdiction source mime : pystr)
    (date : pyval) (citation url text formatted : pystr) :
  format_citation citation type jurisdiction = Ok formatted ->
  make_doc now version_id type jurisdiction source mime date citation url text
  = if (length (filter is_word (clean_text text)) <? 9)%nat
    then Ok (None, [short_text_warning url (clean_text text)])
    else Ok (Some {| struct_class := "Document";
                     struct_fields :=
                       [("version_id", VStr version_id); ("type", VStr type);
                        ("jurisdiction", VStr jurisdiction); ("source", VStr source);
                        ("mime", VStr mime); ("date", date);
                        ("citation", VStr formatted); ("url", VStr url);
                        ("when_scraped", VStr now); ("text", VStr (clean_text text));
                        ("other", VNone)] |}, []).
Proof.
  intros Hc. unfold make_doc. rewrite Hc. cbn [bind].
  rewrite too_short_word_characters.
  destruct (length (filter is_word (clean_text text)) <? 9)%nat; reflexivity.
Qed.

(** [make_section] passes the keyword [jurisdiction], which [Section] does not
    declare: for a text of nine word characters or more the call raises. *)
Lemma make_section_outcome (now version_id jurisdiction type number title : pystr)
    (citation url text formatted : pystr) :
  format_citation citation type jurisdiction = Ok formatted ->
  make_section now version_id jurisdiction type number title citation url text
  = if (length (filter is_word (clean_text text)) <? 9)%nat
    then Ok (None, [short_text_warning url (clean_text text)])
    else Raise (TypeError (lit "Unexpected keyword argument 'jurisdiction'")).
Proof.
  intros Hc. unfold make_section. rewrite Hc. cbn [bind].
  rewrite too_short_word_characters.
  destruct (length (filter is_word (clean_text text)) <? 9)%nat; reflexivity.
Qed.
End DocumentFacts.

(** C1.  [make_doc] returns nothing, with a warning, for the text "12 34".
    For the text "1234567890", which has no alphabetic character at all, it
    returns a document; and for the text "abcdefghij", of ten letters,
    [make_section] returns no section but raises a [TypeError]. *)
Theorem make_doc_make_section_threshold `{Runtime} (now : pystr) :
  make_doc now (lit "v1") (lit "decision") (lit "queensland") (lit "src")
           (lit "text/html") VNone (lit "R v X") (lit "u") (lit "12 34")
  = Ok (None, [short_text_warning (lit "u") (lit "12 34")])
  /\ filter ascii_isalpha (lit "1234567890") = []
  /\ make_doc now (lit "v1") (lit "decision") (lit "queensland") (lit "src")
              (lit "text/html") VNone (lit "R v X") (lit "u") (lit "1234567890")
     = Ok (Some {| struct_class := "Document";
                   struct_fields :=
                     [("version_id", VStr (lit "v1")); ("type", VStr (lit "decision"));
                      ("jurisdiction", VStr (lit "queensland"));
                      ("source", VStr (lit "src")); ("mime", VStr (lit "text/html"));
                      ("date", VNone); ("citation", VStr (lit "R v X"));
                      ("url", VStr (lit "u")); ("when_scraped", VStr now);
                      ("text", VStr (lit "1234567890")); ("other", VNone)] |}, [])
  /\ make_section now (lit "v1") (lit "queensland") (lit "primary_legislation")
                  (lit "1") (lit "Short title") (lit "Act") (lit "u") (lit "abcdefghij")
     = Raise (TypeError (lit "Unexpected keyword argument 'jurisdiction'")).
Proof. repeat split; reflexivity. Qed.

(** * Further properties *)

(** ** The last three substitutions of clean_text *)

Lemma is_newline_space (c : N) : is_newline c = true -> is_space c = true.
Proof. unfold is_newline. intros E. apply N.eqb_eq in E. now subst. Qed.

Lemma is_space_or_tab_space (c : N) : is_space_or_tab c = true -> is_space c = true.
Proof.
  unfold is_space_or_tab. intros E. apply orb_true_iff in E.
  destruct E as [E|E]; apply N.eqb_eq in E; now subst.
Qed.

Lemma is_space_or_tab_not_newline (c : N) :
  is_space_or_tab c = true -> is_newline c = false.
Proof.
  unfold is_space_or_tab. intros E. apply orb_true_iff in E.
  destruct E as [E|E]; apply N.eqb_eq in E; now subst.
Qed.

(** *** [re.sub(r'[ \t]+\n', '\n', s)] *)

Lemma greedy_blanks_newline (s : pystr) : forall adv b,
  greedy is_space_or_tab (match_here [One is_newline]) adv b s
  = match drop_while is_space_or_tab s with
    | d :: rest =>
        if is_newline d
        then Some (d :: rev (take_while is_space_or_tab s) ++ b, rest)
        else None
    | [] => None
    end.
Proof.
  induction s as [|c s IH]; intros adv b; [reflexivity|].
  cbn [greedy drop_while take_while].
  destruct (is_space_or_tab c) eqn:Ec.
  - rewrite IH.
    destruct (drop_while is_space_or_tab s) as [|d rest].
    + cbn [match_here]. now rewrite (is_space_or_tab_not_newline _ Ec).
    + destruct (is_newline d).
      * cbn [rev]. now rewrite <- app_assoc.
      * cbn [match_here]. now rewrite (is_space_or_tab_not_newline _ Ec).
  - cbn [match_here rev app]. reflexivity.
Qed.

Lemma drop_line_end_blanks_run (s rest : pystr) (d : N) :
  drop_while is_space_or_tab s = d :: rest -> is_newline d = true ->
  drop_line_end_blanks s = d :: drop_line_end_blanks rest.
Proof.
  intros Hd Hnl. induction s as [|c s IH]; [discriminate|].
  cbn [drop_while] in Hd. cbn [drop_line_end_blanks].
  destruct (is_space_or_tab c) eqn:Ec.
  - unfold blanks_then_newline at 1. rewrite Hd, Hnl. cbn [andb]. now apply IH.
  - injection Hd as -> ->. cbn [andb]. reflexivity.
Qed.

Lemma sub_from_line_end_blanks (fuel : nat) : forall s b,
  (length s <= fuel)%nat ->
  sub_from fuel line_end_blanks [LF] false b s = drop_line_end_blanks s.
Proof.
  induction fuel as [|fuel IH]; intros s b Hl.
  - destruct s; [reflexivity|simpl in Hl; lia].
  - destruct s as [|c s]; [reflexivity|].
    cbn [sub_from line_end_blanks match_here drop_line_end_blanks].
    cbn [length] in Hl.
    destruct (is_space_or_tab c) eqn:Ec; cbn [andb].
    + rewrite greedy_blanks_newline. unfold blanks_then_newline.
      pose proof (drop_while_length is_space_or_tab s) as Hlen.
      destruct (drop_while is_space_or_tab s) as [|d rest] eqn:Hd.
      * f_equal. apply IH. lia.
      * destruct (is_newline d) eqn:Hnl.
        -- cbn [length] in Hlen.
           replace (length rest =? length (c :: s))%nat with false
             by (symmetry; apply Nat.eqb_neq; cbn [length]; lia).
           rewrite IH by lia.
           rewrite (drop_line_end_blanks_run _ Hd Hnl).
           apply N.eqb_eq in Hnl. now subst d.
        -- f_equal. apply IH. lia.
    + f_equal. apply IH. lia.
Qed.

Lemma re_sub_line_end_blanks (s : pystr) :
  re_sub [Many1 is_space_or_tab; One is_newline] [LF] s = drop_line_end_blanks s.
Proof. unfold re_sub. apply sub_from_line_end_blanks. lia. Qed.

(** *** [re.sub(r'\n\s*$', '', s)] *)

Lemma greedy_space_to_end (s : pystr) : forall b,
  greedy is_space (match_here [Dollar]) false b s
  = if forallb is_space s then Some (rev s ++ b, []) else None.
Proof.
  induction s as [|c s IH]; intros b; [reflexivity|].
  cbn [greedy forallb].
  destruct (is_space c) eqn:Ec; cbn [andb].
  - rewrite IH. destruct (forallb is_space s) eqn:Es.
    + cbn [rev]. now rewrite <- app_assoc.
    + destruct s as [|d s]; [discriminate|reflexivity].
  - cbn [match_here]. destruct s as [|d s]; [|reflexivity].
    destruct (N.eqb_spec c LF) as [->|]; [discriminate|reflexivity].
Qed.

Lemma sub_from_trailing_blank_lines (fuel : nat) : forall s b,
  (length s <= fuel)%nat ->
  sub_from fuel trailing_blank_lines [] false b s = cut_trailing_lines s.
Proof.
  induction fuel as [|fuel IH]; intros s b Hl.
  - destruct s; [reflexivity|simpl in Hl; lia].
  - destruct s as [|c s]; [reflexivity|].
    cbn [sub_from trailing_blank_lines match_here cut_trailing_lines].
    cbn [length] in Hl.
    destruct (is_newline c) eqn:Ec; cbn [andb].
    + rewrite greedy_space_to_end.
      destruct (forallb is_space s).
      * cbn [app]. destruct fuel; reflexivity.
      * f_equal. apply IH. lia.
    + f_equal. apply IH. lia.
Qed.

Lemma re_sub_trailing_blank_lines (s : pystr) :
  re_sub [One is_newline; Many0 is_space; Dollar] [] s = cut_trailing_lines s.
Proof. unfold re_sub. apply sub_from_trailing_blank_lines. lia. Qed.

(** *** [re.sub(r'^\s*\n', '', s)] *)

Lemma greedy_space_newline (s : pystr) : forall adv b,
  greedy is_space (match_here [One is_newline]) adv b s
  = match after_leading_lines s with
    | Some r => Some (rev (firstn (length s - length r) s) ++ b, r)
    | None => None
    end.
Proof.
  induction s as [|c s IH]; intros adv b; [reflexivity|].
  cbn [greedy after_leading_lines].
  destruct (is_space c) eqn:Ec.
  - rewrite IH. destruct (after_leading_lines s) as [r|] eqn:Er.
    + assert (length r <= length s)%nat as Hr.
      { clear IH. revert r Er. induction s as [|d s IHs]; intros r Er; [discriminate|].
        cbn [after_leading_lines] in Er. destruct (is_space d); [|discriminate].
        destruct (after_leading_lines s) as [r'|].
        - injection Er as <-. specialize (IHs _ eq_refl). simpl. lia.
        - destruct (is_newline d); [|discriminate]. injection Er as <-. simpl. lia. }
      cbn [length]. replace (S (length s) - length r)%nat with (S (length s - length r)) by lia.
      cbn [firstn rev]. now rewrite <- app_assoc.
    + cbn [match_here]. destruct (is_newline c); [|reflexivity].
      cbn [length]. replace (S (length s) - length s)%nat with 1%nat by lia.
      reflexivity.
  - cbn [match_here].
    destruct (is_newline c) eqn:En; [|reflexivity].
    apply is_newline_space in En. congruence.
Qed.

Lemma after_leading_lines_suffix (s r : pystr) :
  after_leading_lines s = Some r ->
  exists m, s = m ++ r /\ m <> [] /\ forallb is_space m = true.
Proof.
  revert r. induction s as [|c s IH]; intros r E; [discriminate|].
  cbn [after_leading_lines] in E. destruct (is_space c) eqn:Ec; [|discriminate].
  destruct (after_leading_lines s) as [r'|].
  - injection E as <-. destruct (IH _ eq_refl) as (m & -> & _ & Hm).
    exists (c :: m). repeat split; [discriminate|]. simpl. now rewrite Ec.
  - destruct (is_newline c); [|discriminate]. injection E as <-.
    exists [c]. repeat split; [discriminate|]. simpl. now rewrite Ec.
Qed.

Lemma caret_after_start (r : regex) (c : N) (b w : pystr) (adv : bool) :
  match_here (Caret :: r) adv (b ++ [c]) w = None.
Proof. cbn [match_here]. destruct b; reflexivity. Qed.

Lemma sub_from_caret_rest (r : regex) (repl : pystr) (fuel : nat) (s b : pystr) :
  b <> [] -> sub_from fuel (Caret :: r) repl false b s = s.
Proof.
  intros Hb. apply sub_from_no_match. intros u w _.
  cbn [match_here]. destruct (rev u ++ b) eqn:E; [|reflexivity].
  apply app_eq_nil in E. destruct E. congruence.
Qed.

Lemma re_sub_leading_blank_lines (s : pystr) :
  re_sub [Caret; Many0 is_space; One is_newline] [] s
  = match after_leading_lines s with Some r => r | None => s end.
Proof.
  unfold re_sub.
  destruct s as [|c s]; [reflexivity|].
  set (fuel := (2 * length (c :: s) + 1)%nat).
  replace (2 * length (c :: s) + 2)%nat with (S fuel) by (unfold fuel; lia).
  cbn [sub_from match_here]. rewrite greedy_space_newline.
  destruct (after_leading_lines (c :: s)) as [r|] eqn:Er.
  - cbn [app].
    apply after_leading_lines_suffix in Er. destruct Er as (m & E & Hm & _).
    apply (f_equal (@length N)) in E. rewrite length_app in E.
    assert (0 < length m)%nat as Hlen by (destruct m; [congruence|simpl; lia]).
    replace (length r =? length (c :: s))%nat with false
      by (symmetry; apply Nat.eqb_neq; lia).
    apply sub_from_caret_rest.
    intros Hnil. apply app_eq_nil in Hnil. destruct Hnil as [Hnil _].
    apply (f_equal (@length N)) in Hnil. rewrite length_rev, length_firstn in Hnil.
    rewrite E in Hnil. cbn [length] in Hnil. lia.
  - f_equal. apply sub_from_caret_rest. discriminate.
Qed.

(** ** The line structure of a cleaned text *)

Lemma clean_text_last_steps (text : pystr) :
  exists x,
    clean_text text
    = drop_line_end_blanks
        (cut_trailing_lines
           (match after_leading_lines x with Some r => r | None => x end)).
Proof.
  unfold clean_text.
  rewrite re_sub_line_end_blanks, re_sub_trailing_blank_lines,
    re_sub_leading_blank_lines.
  eexists. reflexivity.
Qed.

Lemma drop_line_end_blanks_head (s : pystr) :
  match drop_line_end_blanks s with d :: _ => is_newline d | [] => false end
  = blanks_then_newline s.
Proof.
  induction s as [|c s IH]; [reflexivity|].
  cbn [drop_line_end_blanks].
  destruct (is_space_or_tab c) eqn:Ec; cbn [andb].
  - assert (blanks_then_newline (c :: s) = blanks_then_newline s) as E
      by (unfold blanks_then_newline; cbn [drop_while]; now rewrite Ec).
    rewrite E. destruct (blanks_then_newline s) eqn:Eb; [exact IH|].
    apply (is_space_or_tab_not_newline _ Ec).
  - unfold blanks_then_newline. cbn [drop_while]. now rewrite Ec.
Qed.

Lemma drop_line_end_blanks_clean (s : pystr) :
  blank_before_newline (drop_line_end_blanks s) = false.
Proof.
  induction s as [|c s IH]; [reflexivity|].
  cbn [drop_line_end_blanks].
  destruct (is_space_or_tab c && blanks_then_newline s) eqn:E; [exact IH|].
  cbn [blank_before_newline]. rewrite IH, orb_false_r.
  rewrite drop_line_end_blanks_head. exact E.
Qed.

Lemma starts_with_blank_line_none (s : pystr) :
  after_leading_lines s = None -> starts_with_blank_line s = false.
Proof.
  unfold starts_with_blank_line.
  induction s as [|d s IHs]; intros E; [reflexivity|].
  cbn [after_leading_lines] in E. cbn [take_while].
  destruct (is_space d); [|reflexivity].
  destruct (after_leading_lines s); [discriminate|].
  destruct (is_newline d) eqn:Ed; [discriminate|].
  cbn [existsb]. rewrite Ed. cbn [orb]. now apply IHs.
Qed.

Lemma starts_with_blank_line_after (s r : pystr) :
  after_leading_lines s = Some r -> starts_with_blank_line r = false.
Proof.
  revert r. induction s as [|c s IH]; intros r E; [discriminate|].
  cbn [after_leading_lines] in E. destruct (is_space c); [|discriminate].
  destruct (after_leading_lines s) as [r'|] eqn:Er.
  - injection E as <-. now apply IH.
  - destruct (is_newline c); [|discriminate]. injection E as <-.
    now apply starts_with_blank_line_none.
Qed.

Lemma starts_with_blank_line_cut (s : pystr) :
  starts_with_blank_line s = false ->
  starts_with_blank_line (cut_trailing_lines s) = false.
Proof.
  unfold starts_with_blank_line.
  induction s as [|c s IH]; intros E; [reflexivity|].
  cbn [cut_trailing_lines].
  destruct (is_newline c && forallb is_space s); [reflexivity|].
  cbn [take_while] in *. destruct (is_space c); [|reflexivity].
  cbn [existsb] in *. apply orb_false_iff in E. destruct E as [Ec E].
  rewrite Ec. cbn [orb]. now apply IH.
Qed.

Lemma blanks_then_newline_starts (s : pystr) :
  blanks_then_newline s = true -> starts_with_blank_line s = true.
Proof.
  unfold blanks_then_newline, starts_with_blank_line.
  induction s as [|c s IH]; [discriminate|].
  cbn [drop_while take_while].
  destruct (is_space_or_tab c) eqn:Ec.
  - intros E. rewrite (is_space_or_tab_space _ Ec). cbn [existsb].
    rewrite (IH E). apply orb_true_r.
  - intros E. rewrite (is_newline_space _ E). cbn [existsb]. now rewrite E.
Qed.

Lemma starts_with_blank_line_drop (s : pystr) :
  starts_with_blank_line s = false ->
  starts_with_blank_line (drop_line_end_blanks s) = false.
Proof.
  induction s as [|c s IH]; intros E; [reflexivity|].
  cbn [drop_line_end_blanks].
  unfold starts_with_blank_line in E. cbn [take_while] in E.
  destruct (is_space c) eqn:Ec.
  - cbn [existsb] in E. apply orb_false_iff in E. destruct E as [En E].
    fold (starts_with_blank_line s) in E.
    destruct (blanks_then_newline s) eqn:Eb.
    + apply blanks_then_newline_starts in Eb. congruence.
    + rewrite andb_false_r. unfold starts_with_blank_line. cbn [take_while].
      rewrite Ec. cbn [existsb]. rewrite En. cbn [orb]. now apply IH.
  - destruct (is_space_or_tab c) eqn:Eb.
    + apply is_space_or_tab_space in Eb. congruence.
    + cbn [andb]. unfold starts_with_blank_line. cbn [take_while]. now rewrite Ec.
Qed.

Lemma forallb_space_cut (s : pystr) :
  forallb is_space (cut_trailing_lines s) = true -> forallb is_space s = true.
Proof.
  induction s as [|c s IH]; [reflexivity|].
  cbn [cut_trailing_lines].
  destruct (is_newline c && forallb is_space s) eqn:E.
  - intros _. apply andb_true_iff in E. destruct E as [Ec Es].
    cbn [forallb]. now rewrite (is_newline_space _ Ec), Es.
  - cbn [forallb]. intros H. apply andb_true_iff in H. destruct H as [Hc Hs].
    now rewrite Hc, (IH Hs).
Qed.

Lemma cut_trailing_lines_clean (s : pystr) :
  ends_with_blank_line (cut_trailing_lines s) = false.
Proof.
  induction s as [|c s IH]; [reflexivity|].
  cbn [cut_trailing_lines].
  destruct (is_newline c && forallb is_space s) eqn:E; [reflexivity|].
  cbn [ends_with_blank_line]. rewrite IH, orb_false_r.
  destruct (is_newline c); [|reflexivity]. cbn [andb] in *.
  destruct (forallb is_space (cut_trailing_lines s)) eqn:Es; [|reflexivity].
  apply forallb_space_cut in Es. congruence.
Qed.

Lemma forallb_space_drop (s : pystr) :
  forallb is_space (drop_line_end_blanks s) = forallb is_space s.
Proof.
  induction s as [|c s IH]; [reflexivity|].
  cbn [drop_line_end_blanks forallb].
  destruct (is_space_or_tab c) eqn:Ec; cbn [andb].
  - rewrite (is_space_or_tab_space _ Ec). cbn [andb].
    destruct (blanks_then_newline s); [exact IH|].
    cbn [forallb]. now rewrite (is_space_or_tab_space _ Ec), IH.
  - cbn [forallb]. now rewrite IH.
Qed.

Lemma ends_with_blank_line_drop (s : pystr) :
  ends_with_blank_line s = false ->
  ends_with_blank_line (drop_line_end_blanks s) = false.
Proof.
  induction s as [|c s IH]; intros E; [reflexivity|].
  cbn [ends_with_blank_line] in E. apply orb_false_iff in E. destruct E as [Ec E].
  cbn [drop_line_end_blanks].
  destruct (is_space_or_tab c && blanks_then_newline s); [now apply IH|].
  cbn [ends_with_blank_line]. now rewrite forallb_space_drop, Ec, (IH E).
Qed.

(** X2.  In the text cleaned by [clean_text] no space or tab stands right
    before a line feed. *)
Theorem clean_text_no_blank_at_line_end (text : pystr) :
  blank_before_newline (clean_text text) = false.
Proof.
  destruct (clean_text_last_steps text) as [x ->].
  apply drop_line_end_blanks_clean.
Qed.

(** X3.  The text cleaned by [clean_text] does not start with a blank line:
    no line feed stands in its leading whitespace. *)
Theorem clean_text_no_leading_blank_line (text : pystr) :
  starts_with_blank_line (clean_text text) = false.
Proof.
  destruct (clean_text_last_steps text) as [x ->].
  apply starts_with_blank_line_drop, starts_with_blank_line_cut.
  destruct (after_leading_lines x) as [r|] eqn:E.
  - now apply (starts_with_blank_line_after x).
  - now apply starts_with_blank_line_none.
Qed.

(** X4.  The text cleaned by [clean_text] ends neither with a line feed nor
    with a blank line: after each of its line feeds comes a character that
    is not whitespace. *)
Theorem clean_text_no_trailing_blank_line (text : pystr) :
  ends_with_blank_line (clean_text text) = false.
Proof.
  destruct (clean_text_last_steps text) as [x ->].
  apply ends_with_blank_line_drop, cut_trailing_lines_clean.
Qed.

(** ** What clean_text leaves of the characters *)

Lemma non_space_all_space (m : pystr) :
  forallb is_space m = true -> non_space m = [].
Proof.
  unfold non_space. induction m as [|c m IH]; [reflexivity|].
  cbn [forallb filter]. intros E. apply andb_true_iff in E. destruct E as [Ec Em].
  rewrite Ec. cbn [negb]. now apply IH.
Qed.

(** A substitution that replaces whitespace by whitespace keeps the other
    characters. *)
Lemma sub_from_non_space (r : regex) (repl : pystr) :
  (forall b m rest, accepts r b m rest -> forallb is_space m = true) ->
  forallb is_space repl = true ->
  forall fuel adv b s,
    non_space (sub_from fuel r repl adv b s) = non_space s.
Proof.
  intros Hr Hrepl. induction fuel as [|fuel IH]; intros adv b s; [reflexivity|].
  cbn [sub_from].
  destruct (match_here r adv b s) as [[b' s']|] eqn:E.
  - apply match_here_sound in E. destruct E as (m & -> & _ & Hacc & _).
    rewrite !non_space_app, IH.
    rewrite (non_space_all_space _ Hrepl).
    now rewrite (non_space_all_space _ (Hr _ _ _ Hacc)).
  - destruct s as [|c s]; [reflexivity|].
    change (c :: sub_from fuel r repl false (c :: b) s)
      with ([c] ++ sub_from fuel r repl false (c :: b) s).
    change (c :: s) with ([c] ++ s).
    now rewrite !non_space_app, IH.
Qed.

Lemma replace_go_absent (old new : pystr) (c : N) (old' s : pystr) :
  old = c :: old' -> ~ In c s -> replace_go old new 0 s = s.
Proof.
  intros ->. induction s as [|d s IH]; intros Hin; [reflexivity|].
  cbn [replace_go starts_with].
  destruct (N.eqb_spec c d) as [->|Hcd].
  - exfalso. apply Hin. now left.
  - cbn [andb]. f_equal. apply IH. intros H. apply Hin. now right.
Qed.

Lemma non_space_replace_NBSP (s : pystr) :
  non_space (str_replace [NBSP] [SPACE] s) = non_space s.
Proof.
  unfold str_replace, non_space. induction s as [|d s IH]; [reflexivity|].
  cbn [replace_go starts_with length Nat.sub]. rewrite andb_true_r.
  destruct (N.eqb_spec NBSP d) as [<-|Hd].
  - cbn [app filter]. exact IH.
  - cbn [filter]. now rewrite IH.
Qed.

(** X5.  For a text without a backslash, [clean_text] changes whitespace
    only: the characters of the cleaned text other than whitespace are those
    of the text, in the same order. *)
Theorem clean_text_keeps_non_space (text : pystr) :
  ~ In 92 text -> non_space (clean_text text) = non_space text.
Proof.
  intros Hb. unfold clean_text, re_sub.
  rewrite !sub_from_non_space; try reflexivity.
  - unfold str_replace at 1.
    rewrite (@replace_go_absent (lit "\r\n") [LF] 92 (lit "r\n")); [|reflexivity|].
    + apply non_space_replace_NBSP.
    + intros Hin. apply replace_go_In in Hin.
      destruct Hin as [[Hin|[]]|Hin]; [discriminate Hin|contradiction].
  - cbn [accepts]. intros b m rest (_ & m1 & m2 & -> & Hm1 & _ & ->).
    now rewrite app_nil_r.
  - cbn [accepts]. intros b m rest (_ & m1 & m2 & -> & Hm1 & c & m' & -> & Hc & ->).
    rewrite forallb_app, Hm1. cbn [forallb andb].
    now rewrite (is_newline_space _ Hc).
  - cbn [accepts]. intros b m rest (c & m' & -> & Hc & m1 & m2 & -> & Hm1 & _ & ->).
    cbn [forallb]. now rewrite (is_newline_space _ Hc), app_nil_r, Hm1.
  - cbn [accepts].
    intros b m rest (m1 & m2 & -> & _ & Hm1 & c & m' & -> & Hc & ->).
    rewrite forallb_app. cbn [forallb]. rewrite (is_newline_space _ Hc).
    rewrite andb_true_r. apply forallb_forall. intros x Hx.
    rewrite forallb_forall in Hm1. now apply is_space_or_tab_space, Hm1.
Qed.

Lemma clean_text_keeps_non_space_witness :
  ~ In 92 ([SPACE; LF] ++ lit "Part 1 " ++ [NBSP; TAB; LF; LF] ++ lit "Short title" ++ [LF])
  /\ non_space (clean_text ([SPACE; LF] ++ lit "Part 1 " ++ [NBSP; TAB; LF; LF]
                              ++ lit "Short title" ++ [LF]))
     = lit "Part1Shorttitle".
Proof.
  assert (~ In 92 ([SPACE; LF] ++ lit "Part 1 " ++ [NBSP; TAB; LF; LF]
                     ++ lit "Short title" ++ [LF])) as Hb
      by (cbv; intuition discriminate).
  split; [exact Hb|].
  rewrite (clean_text_keeps_non_space _ Hb). reflexivity.
Defined.

(** ** How many batches *)

Lemma batch_generator_count `{Platform} (n : Z) (Hn : (1 <= n <= sys_maxsize + 1)%Z)
    (A : Type) (len : nat) :
  forall l : list A, (length l <= len)%nat ->
    Z.of_nat (length (fst (batch_generator l n)))
    = ((Z.of_nat (length l) + n - 1) / n)%Z.
Proof.
  induction len as [|len IH]; intros l Hl.
  - destruct l; [|simpl in Hl; lia].
    rewrite batch_generator_equation_1. simpl.
    symmetry. apply Z.div_small. lia.
  - destruct l as [|first iterator].
    + rewrite batch_generator_equation_1. simpl.
      symmetry. apply Z.div_small. lia.
    + rewrite batch_generator_cons by assumption.
      unfold yield. cbn [fst length].
      rewrite Nat2Z.inj_succ, IH by (rewrite length_skipn; simpl in Hl; lia).
      rewrite length_skipn.
      destruct (Z.le_gt_cases n (Z.of_nat (length iterator))) as [Hle|Hgt].
      * replace (Z.of_nat (length iterator - Z.to_nat (n - 1)))
          with (Z.of_nat (length iterator) - (n - 1))%Z by lia.
        replace (Z.of_nat (S (length iterator)) + n - 1)%Z
          with (Z.of_nat (length iterator) - (n - 1) + n - 1 + 1 * n)%Z by lia.
        rewrite Z.div_add by lia. lia.
      * replace (length iterator - Z.to_nat (n - 1))%nat with 0%nat by lia.
        replace (Z.of_nat 0 + n - 1)%Z with (n - 1)%Z by lia.
        rewrite (Z.div_small (n - 1) n) by lia.
        replace (Z.of_nat (S (length iterator)) + n - 1)%Z
          with (Z.of_nat (length iterator) + 1 * n)%Z by lia.
        rewrite Z.div_add by lia.
        rewrite Z.div_small by lia. lia.
Qed.

(** X6.  [batch_generator] ends without an error exactly when the batch size
    is from 1 to [sys.maxsize + 1] or the iterable is empty; with such a batch
    size it yields the number of items divided by the batch size, rounded up,
    batches, and with any other it yields nothing. *)
Theorem batch_generator_number_of_batches `{Platform} (A : Type)
    (iterable : list A) (n : Z) :
  (snd (batch_generator iterable n) = None
   <-> (1 <= n <= sys_maxsize + 1)%Z \/ iterable = [])
  /\ Z.of_nat (length (fst (batch_generator iterable n)))
     = if ((1 <=? n) && (n <=? sys_maxsize + 1))%Z
       then ((Z.of_nat (length iterable) + n - 1) / n)%Z else 0%Z.
Proof.
  destruct (Z.leb_spec 1 n) as [Hn1|Hn1]; cbn [andb];
    [destruct (Z.leb_spec n (sys_maxsize + 1)) as [Hn2|Hn2]|].
  - assert (1 <= n <= sys_maxsize + 1)%Z as Hn by lia. split.
    + split; [now left|]. intros _.
      now apply (@batch_generator_spec _ A n Hn (length iterable)).
    + now apply (@batch_generator_count _ n Hn A (length iterable)).
  - destruct iterable as [|first iterator].
    + rewrite batch_generator_equation_1. simpl. split; [|reflexivity].
      split; [now right|reflexivity].
    + rewrite batch_generator_equation_2.
      rewrite islice_stop_error_beyond by lia.
      simpl. split; [|reflexivity].
      split; [discriminate|]. intros [Hc|Hc]; [lia|discriminate].
  - destruct iterable as [|first iterator].
    + rewrite batch_generator_equation_1. simpl. split; [|reflexivity].
      split; [now right|reflexivity].
    + rewrite batch_generator_equation_2.
      destruct (islice_stop_error (n - 1)) as [e|] eqn:E.
      * simpl. split; [|reflexivity].
        split; [discriminate|]. intros [Hc|Hc]; [lia|discriminate].
      * apply islice_stop_error_None in E. lia.
Qed.

(** ** alive_gather when a task raises *)

Lemma await_each_first_error (R : Type) (completed : list (nat * result R)) :
  (exists i e, In (i, Raise e) completed) ->
  exists i e, In (i, Raise e) completed /\ await_each completed = Raise e.
Proof.
  induction completed as [|[j [r|e']] completed IH]; intros (i & e & Hin).
  - destruct Hin.
  - destruct Hin as [Hin|Hin]; [discriminate|].
    destruct IH as (i' & e1 & Hin' & E); [now exists i, e|].
    exists i', e1. split; [now right|]. simpl. now rewrite E.
  - exists j, e'. split; [now left|reflexivity].
Qed.

(** X7.  When one of the tasks raises, [alive_gather] returns no result of
    any task: whatever the order of completion, it raises the exception of
    one of the tasks. *)
Theorem alive_gather_raises (R : Type) (R_lt : R -> R -> bool)
    (tasks completed : list (nat * result R)) :
  as_completed tasks completed ->
  (exists i e, In (i, Raise e) tasks) ->
  exists i e, In (i, Raise e) tasks /\ alive_gather R_lt completed = Raise e.
Proof.
  unfold as_completed. intros P (i & e & Hin).
  destruct (@await_each_first_error R completed) as (i' & e' & Hin' & E).
  { exists i, e. eapply Permutation_in; [apply Permutation_sym, P|exact Hin]. }
  exists i', e'. split.
  - eapply Permutation_in; [exact P|exact Hin'].
  - unfold alive_gather. now rewrite E.
Qed.

Lemma alive_gather_raises_witness :
  exists i e,
    In (i, Raise e) [(0%nat, Ok 5); (1%nat, Raise (ValueError (lit "x"))); (2%nat, Ok 7)]
    /\ alive_gather N.ltb [(2%nat, Ok 7); (1%nat, Raise (ValueError (lit "x"))); (0%nat, Ok 5)]
       = Raise e.
Proof.
  apply (@alive_gather_raises N N.ltb
           [(0%nat, Ok 5); (1%nat, Raise (ValueError (lit "x"))); (2%nat, Ok 7)]
           [(2%nat, Ok 7); (1%nat, Raise (ValueError (lit "x"))); (0%nat, Ok 5)]).
  - unfold as_completed.
    eapply perm_trans; [apply perm_swap|].
    eapply perm_trans; [apply perm_skip, perm_swap|]. apply perm_swap.
  - exists 1%nat, (ValueError (lit "x")). right. now left.
Defined.

(** ** JSON lines written and read back *)

Lemma file_lines_line (bytes : list Byte.byte) (rest : list Byte.byte) :
  ~ In Byte.x0a bytes ->
  file_lines (bytes ++ [Byte.x0a] ++ rest) = (bytes ++ [Byte.x0a]) :: file_lines rest.
Proof.
  induction bytes as [|b bytes IH]; intros Hnl.
  - reflexivity.
  - cbn [app file_lines].
    destruct (Byte.eqb b Byte.x0a) eqn:E.
    + apply Byte.byte_dec_bl in E. exfalso. apply Hnl. now left.
    + cbn [app] in IH. rewrite IH; [reflexivity|].
      intros Hin. apply Hnl. now right.
Qed.

(** X8.  When no encoded entry holds a line feed and the decoder gives back
    each entry from its encoding followed by a line feed, [load_jsonl] reads
    from the file written by [save_jsonl] the entries that were saved, in
    their order. *)
Theorem load_jsonl_save_jsonl (A : Type) (content : list A)
    (encoder : A -> result (list Byte.byte))
    (decoder : list Byte.byte -> result A) :
  (forall entry, In entry content ->
     exists bytes, encoder entry = Ok bytes /\ ~ In Byte.x0a bytes
                   /\ decoder (bytes ++ [Byte.x0a]) = Ok entry) ->
  snd (save_jsonl content encoder) = None
  /\ load_jsonl (fst (save_jsonl content encoder)) decoder = Ok content.
Proof.
  unfold load_jsonl. induction content as [|entry content IH]; intros Hc.
  - split; reflexivity.
  - destruct (Hc entry (or_introl eq_refl)) as (bytes & Ee & Hnl & Ed).
    destruct IH as [IH1 IH2]; [intros x Hx; apply Hc; now right|].
    cbn [save_jsonl]. rewrite Ee.
    destruct (save_jsonl content encoder) as [written raised_].
    cbn [fst snd] in *. split; [exact IH1|].
    rewrite file_lines_line by assumption.
    cbn [decode_each]. rewrite Ed. cbn [bind]. now rewrite IH2.
Qed.

Lemma load_jsonl_save_jsonl_witness :
  let encoder := fun b : bool => Ok (if b then [Byte.x31] else [Byte.x30]) in
  let decoder := fun l : list Byte.byte =>
                   match l with
                   | [Byte.x31; Byte.x0a] => Ok true
                   | [Byte.x30; Byte.x0a] => Ok false
                   | _ => Raise (ValueError (lit "not a flag"))
                   end in
  fst (save_jsonl [true; false; true] encoder)
  = [Byte.x31; Byte.x0a; Byte.x30; Byte.x0a; Byte.x31; Byte.x0a]
  /\ load_jsonl (fst (save_jsonl [true; false; true] encoder)) decoder
     = Ok [true; false; true].
Proof.
  intros encoder decoder. split; [reflexivity|].
  apply (@load_jsonl_save_jsonl bool [true; false; true] encoder decoder).
  intros entry _. exists (if entry then [Byte.x31] else [Byte.x30]).
  destruct entry; repeat split; intros [H|[]]; discriminate H.
Defined.

(** ** Version ids that coincide *)

(** X9.  Two raw ids are formatted to the same version id of a source
    exactly when they are equal or one of them, not yet prefixed, is the
    other without its prefix. *)
Theorem format_id_same (v1 v2 src : pystr) :
  format_id v1 src = format_id v2 src
  <-> v1 = v2
      \/ (v1 = src ++ lit ":" ++ v2 /\ starts_with (src ++ lit ":") v2 = false)
      \/ (v2 = src ++ lit ":" ++ v1 /\ starts_with (src ++ lit ":") v1 = false).
Proof.
  rewrite !format_id_unfold.
  destruct (starts_with (src ++ lit ":") v1) eqn:E1,
           (starts_with (src ++ lit ":") v2) eqn:E2.
  - split; [now left|]. intros [H|[[_ H]|[_ H]]]; [exact H|discriminate..].
  - split; [intros ->; right; now left|].
    intros [->|[[H _]|[_ H]]]; [congruence|exact H|discriminate].
  - split; [intros <-; right; now right|].
    intros [->|[[_ H]|[H _]]]; [congruence|discriminate|now symmetry].
  - split.
    + intros H. left. apply app_inv_head in H. now apply app_inv_head in H.
    + intros [->|[[-> _]|[-> _]]]; [reflexivity| |].
      * rewrite app_assoc, starts_with_app in E1. discriminate.
      * rewrite app_assoc, starts_with_app in E2. discriminate.
Qed.

(** ** The form of a formatted citation *)

Lemma str_split_ws_words (s : pystr) : Forall is_a_word (str_split_ws s).
Proof.
  induction s as [|c s IH]; [constructor|].
  rewrite str_split_ws_cons.
  destruct (is_space c) eqn:Ec; [exact IH|].
  assert (is_a_word [c]) as Hc by (split; [discriminate|simpl; now rewrite Ec]).
  destruct s as [|d s]; [constructor; [exact Hc|constructor]|].
  destruct (is_space d); [now constructor|].
  destruct (str_split_ws (d :: s)) as [|w ws]; [constructor; [exact Hc|constructor]|].
  inversion IH as [|? ? [Hw1 Hw2] Hws]; subst.
  constructor; [|exact Hws].
  split; [discriminate|]. simpl. now rewrite Ec, Hw2.
Qed.

Lemma str_split_ws_word_space (w rest : pystr) :
  is_a_word w -> str_split_ws (w ++ SPACE :: rest) = w :: str_split_ws rest.
Proof.
  intros [Hne Hw]. induction w as [|c w IH]; [congruence|].
  simpl in Hw. apply andb_true_iff in Hw. destruct Hw as [Hc Hw].
  apply negb_true_iff in Hc.
  change ((c :: w) ++ SPACE :: rest) with (c :: (w ++ SPACE :: rest)).
  rewrite str_split_ws_cons, Hc.
  destruct w as [|d w].
  - cbn [app]. change (is_space SPACE) with true. cbv iota.
    rewrite str_split_ws_cons. change (is_space SPACE) with true. reflexivity.
  - change ((d :: w) ++ SPACE :: rest) with (d :: (w ++ SPACE :: rest)) in *.
    simpl in Hw. apply andb_true_iff in Hw. destruct Hw as [Hd Hw].
    apply negb_true_iff in Hd. rewrite Hd.
    rewrite IH; [reflexivity|discriminate|].
    simpl. now rewrite Hd, Hw.
Qed.

Lemma str_join_snoc (words : list pystr) (w : pystr) :
  str_join (lit " ") (words ++ [w]) = spaced words ++ w.
Proof.
  unfold spaced. induction words as [|x words IH]; [reflexivity|].
  change ((x :: words) ++ [w]) with (x :: (words ++ [w])).
  destruct (words ++ [w]) as [|y l] eqn:E; [now destruct words|].
  change (str_join (lit " ") (x :: y :: l)) with (x ++ lit " " ++ str_join (lit " ") (y :: l)).
  rewrite IH. cbn [map concat]. now rewrite <- !app_assoc.
Qed.

Lemma str_split_ws_spaced (words : list pystr) :
  Forall is_a_word words -> str_split_ws (spaced words) = words.
Proof.
  unfold spaced. induction 1 as [|w words Hw _ IH]; [reflexivity|].
  cbn [map concat]. rewrite <- app_assoc. cbn [app].
  now rewrite str_split_ws_word_space, IH.
Qed.

Lemma str_split_ws_join (words : list pystr) :
  Forall is_a_word words -> str_split_ws (str_join (lit " ") words) = words.
Proof.
  induction 1 as [|w words Hw Hws IH]; [reflexivity|].
  destruct words as [|w2 words].
  - destruct Hw as [Hne Hw]. now apply str_split_ws_word.
  - change (str_join (lit " ") (w :: w2 :: words))
      with (w ++ SPACE :: str_join (lit " ") (w2 :: words)).
    now rewrite str_split_ws_word_space, IH.
Qed.

Lemma str_join_words_fixed (x : pystr) :
  str_join (lit " ") (str_split_ws (str_join (lit " ") (str_split_ws x)))
  = str_join (lit " ") (str_split_ws x).
Proof. now rewrite str_split_ws_join by apply str_split_ws_words. Qed.

Lemma str_join_single_spaces (words : list pystr) :
  Forall is_a_word words ->
  forallb (fun c => negb (is_space c) || (c =? SPACE)) (str_join (lit " ") words) = true.
Proof.
  induction 1 as [|w words [_ Hw] Hws IH]; [reflexivity|].
  assert (forallb (fun c => negb (is_space c) || (c =? SPACE)) w = true) as Hw'.
  { apply forallb_forall. intros c Hc. rewrite forallb_forall in Hw.
    now rewrite (Hw c Hc). }
  destruct words as [|w2 words]; [exact Hw'|].
  change (str_join (lit " ") (w :: w2 :: words))
    with (w ++ SPACE :: str_join (lit " ") (w2 :: words)).
  rewrite forallb_app, Hw'. cbn [forallb andb]. now rewrite IH.
Qed.

Section CitationForm.
Context `{Runtime}.

(** The value of [format_citation] in closed form. *)
Lemma format_citation_value (title type jurisdiction : pystr) :
  format_citation title type jurisdiction
  = if pystr_eqb type (lit "decision")
    then Ok (str_join (lit " ") (str_split_ws (html_unescape title)))
    else match dict_get JURISDICTIONS jurisdiction with
         | None =>
             Raise (ValueError
                      (lit "Unable to find an abbreviated form of the following jurisdiction: "
                       ++ jurisdiction ++ lit "."))
         | Some a =>
             Ok (str_join (lit " ")
                   (str_split_ws
                      (before_first (paren a) (re_sub No_number [] (html_unescape title)))
                    ++ [paren a]))
         end.
Proof.
  unfold format_citation.
  destruct (pystr_eqb type (lit "decision")); cbn [negb bind].
  - now rewrite re_sub_whitespace, str_split_ws_collapse.
  - destruct (dict_get JURISDICTIONS jurisdiction) as [a|] eqn:Ej; [|reflexivity].
    destruct (JURISDICTIONS_abbreviations _ Ej) as [Hne Hw].
    cbn [bind]. rewrite re_sub_whitespace, str_split_ws_collapse, hd_str_split.
    change (lit " (" ++ a ++ lit ")") with (SPACE :: paren a).
    now rewrite str_split_ws_app_word.
Qed.

Lemma format_citation_words (title type jurisdiction citation : pystr) :
  format_citation title type jurisdiction = Ok citation ->
  exists words, Forall is_a_word words /\ citation = str_join (lit " ") words.
Proof.
  rewrite format_citation_value.
  destruct (pystr_eqb type (lit "decision")).
  - intros [= <-]. eexists. split; [apply str_split_ws_words|reflexivity].
  - destruct (dict_get JURISDICTIONS jurisdiction) as [a|] eqn:Ej; [|discriminate].
    intros [= <-]. eexists. split; [|reflexivity].
    apply Forall_app. split; [apply str_split_ws_words|].
    constructor; [|constructor]. exact (JURISDICTIONS_abbreviations _ Ej).
Qed.
End CitationForm.

(** X10.  A citation returned by [format_citation] is normalised: splitting
    it at whitespace and joining the words by single spaces gives the
    citation back, and its only whitespace characters are plain spaces. *)
Theorem format_citation_normalised `{Runtime}
    (title type jurisdiction citation : pystr) :
  format_citation title type jurisdiction = Ok citation ->
  str_join (lit " ") (str_split_ws citation) = citation
  /\ forallb (fun c => negb (is_space c) || (c =? SPACE)) citation = true.
Proof.
  intros E. apply format_citation_words in E.
  destruct E as (words & Hw & ->). split.
  - now rewrite str_split_ws_join.
  - now apply str_join_single_spaces.
Qed.

Lemma format_citation_normalised_witness :
  @format_citation example_runtime
    ([TAB] ++ lit "Crimes   (Sentencing) " ++ [LF] ++ lit " Act 1991 (Vic) as made")
    (lit "primary_legislation") (lit "victoria")
  = Ok (lit "Crimes (Sentencing) Act 1991 (Vic)")
  /\ str_join (lit " ") (str_split_ws (lit "Crimes (Sentencing) Act 1991 (Vic)"))
     = lit "Crimes (Sentencing) Act 1991 (Vic)".
Proof.
  assert (@format_citation example_runtime
            ([TAB] ++ lit "Crimes   (Sentencing) " ++ [LF] ++ lit " Act 1991 (Vic) as made")
            (lit "primary_legislation") (lit "victoria")
          = Ok (lit "Crimes (Sentencing) Act 1991 (Vic)")) as E by reflexivity.
  split; [exact E|].
  exact (proj1 (@format_citation_normalised example_runtime _ _ _ _ E)).
Defined.

(** ** Formatting a formatted citation again *)

Lemma starts_with_app_cases (p x y : pystr) :
  starts_with p (x ++ y) = true ->
  (exists v, x = p ++ v)
  \/ (exists p', p = x ++ p' /\ p' <> [] /\ starts_with p' y = true).
Proof.
  revert x. induction p as [|a p IH]; intros x E.
  - left. now exists x.
  - destruct x as [|b x].
    + right. exists (a :: p). repeat split; [discriminate|exact E].
    + simpl in E. apply andb_true_iff in E. destruct E as [Eab E].
      apply N.eqb_eq in Eab. subst b.
      destruct (IH _ E) as [[v ->]|(p' & -> & Hp' & Hy)].
      * left. now exists v.
      * right. now exists p'.
Qed.

Lemma before_first_word (sep w rest : pystr) :
  is_a_word sep -> ~ occurs sep w ->
  before_first sep (w ++ SPACE :: rest) = w ++ SPACE :: before_first sep rest.
Proof.
  intros [Hne Hsep] Hno. induction w as [|c w IH].
  - cbn [app before_first].
    destruct sep as [|a sep]; [congruence|].
    simpl in Hsep. apply andb_true_iff in Hsep. destruct Hsep as [Ha _].
    cbn [starts_with].
    destruct (N.eqb_spec a SPACE) as [->|]; [discriminate|reflexivity].
  - change ((c :: w) ++ SPACE :: rest) with (c :: (w ++ SPACE :: rest)).
    cbn [before_first].
    destruct (starts_with sep (c :: w ++ SPACE :: rest)) eqn:E.
    + exfalso.
      change (c :: w ++ SPACE :: rest) with ((c :: w) ++ SPACE :: rest) in E.
      apply starts_with_app_cases in E.
      destruct E as [[v Hv]|(p' & Hp & Hp' & Hy)].
      * apply Hno. exists [], v. exact Hv.
      * destruct p' as [|q p']; [congruence|].
        cbn [starts_with] in Hy. apply andb_true_iff in Hy. destruct Hy as [Hq _].
        apply N.eqb_eq in Hq. subst q sep.
        rewrite forallb_app in Hsep. apply andb_true_iff in Hsep.
        destruct Hsep as [_ Hsep]. discriminate Hsep.
    + cbn [app]. f_equal. apply IH.
      intros (u & v & ->). apply Hno. exists (c :: u), v. reflexivity.
Qed.

Lemma before_first_spaced (sep : pystr) (words : list pystr) (rest : pystr) :
  is_a_word sep -> Forall (fun w => ~ occurs sep w) words ->
  before_first sep (spaced words ++ sep ++ rest) = spaced words.
Proof.
  intros Hsep. unfold spaced. induction 1 as [|w words Hw _ IH].
  - cbn [map concat app]. destruct Hsep as [Hne _].
    destruct sep as [|a sep]; [congruence|].
    change ((a :: sep) ++ rest) with (a :: (sep ++ rest)).
    cbn [before_first].
    change (a :: sep ++ rest) with ((a :: sep) ++ rest).
    now rewrite starts_with_app.
  - cbn [map concat]. rewrite <- !app_assoc. cbn [app].
    rewrite before_first_word by assumption.
    now rewrite IH.
Qed.

(** The first word of a text that starts with no whitespace starts the
    text. *)
Lemma str_split_ws_first (s : pystr) : forall c w ws,
  is_space c = false -> str_split_ws (c :: s) = w :: ws ->
  exists v, c :: s = w ++ v.
Proof.
  induction s as [|d s IH]; intros c w ws Hc E; rewrite str_split_ws_cons, Hc in E.
  - injection E as <- <-. now exists [].
  - destruct (is_space d) eqn:Ed.
    + injection E as <- <-. now exists (d :: s).
    + destruct (str_split_ws (d :: s)) as [|w1 ws1] eqn:Es.
      * injection E as <- <-. now exists (d :: s).
      * injection E as <- <-.
        destruct (IH d w1 ws1 Ed Es) as [v Hv]. rewrite Hv. now exists v.
Qed.

(** Every word of a text is a part of the text. *)
Lemma str_split_ws_part (s w : pystr) :
  In w (str_split_ws s) -> occurs w s.
Proof.
  unfold occurs. revert w. induction s as [|c s IH]; intros w Hin; [destruct Hin|].
  destruct (is_space c) eqn:Ec.
  - rewrite str_split_ws_cons, Ec in Hin.
    destruct (IH _ Hin) as (u & v & ->). now exists (c :: u), v.
  - destruct (str_split_ws (c :: s)) as [|w0 ws] eqn:Es; [destruct Hin|].
    destruct Hin as [<-|Hin].
    + destruct (@str_split_ws_first s c w0 ws Ec Es) as [v ->]. now exists [], v.
    + assert (In w (str_split_ws s)) as Hin'.
      { rewrite str_split_ws_cons, Ec in Es.
        destruct s as [|d s]; [injection Es as <- <-; destruct Hin|].
        destruct (is_space d).
        - injection Es as <- <-. exact Hin.
        - destruct (str_split_ws (d :: s)) as [|w1 ws1].
          + injection Es as <- <-. destruct Hin.
          + injection Es as <- <-. now right. }
      destruct (IH _ Hin') as (u & v & ->). now exists (c :: u), v.
Qed.

Lemma occurs_part (sep w s : pystr) : occurs sep w -> occurs w s -> occurs sep s.
Proof.
  intros (u & v & ->) (u' & v' & ->).
  exists (u' ++ u), (v ++ v'). now rewrite <- !app_assoc.
Qed.

Lemma before_first_no_occurrence (sep s : pystr) :
  sep <> [] -> ~ occurs sep (before_first sep s).
Proof.
  intros Hne (u & v & E).
  assert (exists tail, s = before_first sep s ++ tail) as [tail Hs].
  { destruct (before_first_found sep s) as [Hs|[rest Hs]].
    - exists []. now rewrite app_nil_r.
    - now exists (sep ++ rest). }
  assert (starts_with sep (skipn (length u) s) = false) as Hnone.
  { apply (@before_first_none_inside sep s u (sep ++ v) E).
    destruct sep; [congruence|discriminate]. }
  rewrite Hs, E, <- !app_assoc, skipn_app, Nat.sub_diag, skipn_all in Hnone.
  cbn [skipn app] in Hnone. now rewrite starts_with_app in Hnone.
Qed.

Lemma html_unescape_plain `{Runtime} (s : pystr) :
  ~ In 38 s -> html_unescape s = s.
Proof.
  intros Hs. unfold html_unescape.
  destruct (existsb (N.eqb 38) s) eqn:E; [|reflexivity].
  apply existsb_exists in E. destruct E as (c & Hc & Ec).
  apply N.eqb_eq in Ec. now subst c.
Qed.

Lemma non_space_In (c : N) (s : pystr) :
  In c (non_space s) <-> In c s /\ is_space c = false.
Proof.
  unfold non_space. rewrite filter_In.
  now rewrite negb_true_iff.
Qed.

Lemma JURISDICTIONS_no_ampersand (jurisdiction a : pystr) :
  dict_get JURISDICTIONS jurisdiction = Some a -> ~ In 38 (paren a).
Proof.
  intros Hj. apply dict_get_Some_In in Hj.
  assert (Forall (fun kv => existsb (N.eqb 38) (paren (snd kv)) = false) JURISDICTIONS)
    as Hall by (repeat constructor).
  rewrite Forall_forall in Hall. specialize (Hall _ Hj). cbn beta iota delta [snd] in Hall.
  intros Hin.
  assert (existsb (N.eqb 38) (paren a) = true) as Ht; [|rewrite Ht in Hall; discriminate Hall].
  apply existsb_exists. exists 38. split; [exact Hin|reflexivity].
Qed.

Section CitationAgain.
Context `{Runtime}.

Lemma No_suffixed_ends (t p nl : pystr) :
  No_suffixed t p nl -> is_decimal (last t 0) = true \/ last t 0 = LF.
Proof.
  intros (ws & ds & -> & _ & _ & Hds & Fds & Hend).
  destruct (exists_last Hds) as (ds0 & d & ->).
  rewrite forallb_app in Fds. apply andb_true_iff in Fds.
  destruct Fds as [_ Fd]. simpl in Fd. rewrite andb_true_r in Fd.
  destruct Hend as [-> | ->].
  - left. now rewrite app_nil_r, !app_assoc, last_last.
  - right.
    replace (p ++ lit " No" ++ ws ++ (ds0 ++ [d]) ++ [LF])
      with ((p ++ lit " No" ++ ws ++ ds0 ++ [d]) ++ [LF])
      by (now rewrite <- !app_assoc).
    now rewrite last_last.
Qed.

Lemma re_sub_No_number_paren (x a : pystr) :
  re_sub No_number [] (x ++ paren a) = x ++ paren a.
Proof.
  apply re_sub_No_number_keeps. intros p nl Hs.
  apply No_suffixed_ends in Hs.
  assert (last (x ++ paren a) 0 = 41) as Hlast.
  { unfold paren. rewrite !app_assoc. apply last_last. }
  rewrite Hlast in Hs. destruct Hs as [Hs|Hs]; discriminate Hs.
Qed.

(** X11.  For a title without an ampersand, a citation returned by
    [format_citation] is left as it is when it is formatted again with the
    same type and jurisdiction. *)
Theorem format_citation_again (title type jurisdiction citation : pystr) :
  ~ In 38 title ->
  format_citation title type jurisdiction = Ok citation ->
  format_citation citation type jurisdiction = Ok citation.
Proof.
  intros Hamp E. rewrite format_citation_value in E |- *.
  rewrite (html_unescape_plain _ Hamp) in E.
  destruct (pystr_eqb type (lit "decision")).
  - injection E as <-.
    rewrite html_unescape_plain; [now rewrite str_join_words_fixed|].
    intros Hin.
    assert (In 38 (non_space (str_join (lit " ") (str_split_ws title)))) as Hin'
      by (apply non_space_In; now split).
    rewrite non_space_words in Hin'. apply non_space_In in Hin'. tauto.
  - destruct (dict_get JURISDICTIONS jurisdiction) as [a|] eqn:Ej; [|discriminate].
    injection E as <-.
    destruct (JURISDICTIONS_abbreviations _ Ej) as [Hne Hw].
    set (stripped := re_sub No_number [] title).
    set (kept := before_first (paren a) stripped).
    assert (~ In 38 kept) as Hkept.
    { intros Hin.
      assert (In 38 stripped) as Hs.
      { destruct (before_first_found (paren a) stripped) as [E|[rest E]];
          fold kept in E.
        - now rewrite <- E.
        - rewrite E. apply in_or_app. now left. }
      apply re_sub_In in Hs. destruct Hs as [[]|Hs]. contradiction. }
    rewrite !str_join_snoc.
    assert (~ In 38 (spaced (str_split_ws kept) ++ paren a)) as Hc.
    { intros Hin.
      assert (In 38 (non_space (spaced (str_split_ws kept) ++ paren a))) as Hin'
        by (apply non_space_In; now split).
      rewrite <- str_join_snoc, non_space_str_join, concat_app, non_space_app in Hin'.
      rewrite concat_str_split_ws, non_space_idem in Hin'.
      apply in_app_or in Hin'. destruct Hin' as [Hin'|Hin'].
      - apply non_space_In in Hin'. tauto.
      - cbn [concat] in Hin'. rewrite app_nil_r in Hin'.
        apply non_space_In in Hin'. destruct Hin' as [Hin' _].
        now apply (JURISDICTIONS_no_ampersand _ Ej). }
    rewrite (html_unescape_plain _ Hc), re_sub_No_number_paren.
    assert (before_first (paren a) (spaced (str_split_ws kept) ++ paren a)
            = spaced (str_split_ws kept)) as Hb.
    { assert (Forall (fun w => ~ occurs (paren a) w) (str_split_ws kept)) as Hall.
      { apply Forall_forall. intros w Hw' Hocc.
        apply (@before_first_no_occurrence (paren a) stripped Hne).
        fold kept. eapply occurs_part; [exact Hocc|].
        now apply str_split_ws_part. }
      pose proof (@before_first_spaced (paren a) (str_split_ws kept) []
                    (conj Hne Hw) Hall) as Hb.
      now rewrite app_nil_r in Hb. }
    rewrite Hb.
    now rewrite str_split_ws_spaced by apply str_split_ws_words.
Qed.
End CitationAgain.

Lemma format_citation_again_witness :
  ~ In 38 (lit "Native  Title (NSW) Act No 45")
  /\ @format_citation example_runtime (lit "Native  Title (NSW) Act No 45")
       (lit "primary_legislation") (lit "new_south_wales")
     = Ok (lit "Native Title (NSW)")
  /\ @format_citation example_runtime (lit "Native Title (NSW)")
       (lit "primary_legislation") (lit "new_south_wales")
     = Ok (lit "Native Title (NSW)").
Proof.
  assert (~ In 38 (lit "Native  Title (NSW) Act No 45")) as Hamp
      by (cbv; intuition discriminate).
  assert (@format_citation example_runtime (lit "Native  Title (NSW) Act No 45")
            (lit "primary_legislation") (lit "new_south_wales")
          = Ok (lit "Native Title (NSW)")) as E by reflexivity.
  split; [exact Hamp|]. split; [exact E|].
  exact (@format_citation_again example_runtime _ _ _ _ Hamp E).
Defined.

(** ** What make_doc and make_section return *)

Section DocumentOutcomes.
Context `{Runtime}.


(** X12.  A document returned by [make_doc] comes without a warning; its
    text is the cleaned text, which has nine word characters or more, its
    citation is the formatted citation, and its field [other] is [None]. *)
Theorem make_doc_document (now version_id type jurisdiction source mime : pystr)
    (date : pyval) (citation url text : pystr) (doc : struct) (warnings : list pystr) :
  make_doc now version_id type jurisdiction source mime date citation url text
  = Ok (Some doc, warnings) ->
  warnings = []
  /\ kwargs_get (struct_fields doc) "text" = Some (VStr (clean_text text))
  /\ (9 <= length (filter is_word (clean_text text)))%nat
  /\ (exists formatted,
        format_citation citation type jurisdiction = Ok formatted
        /\ kwargs_get (struct_fields doc) "citation" = Some (VStr formatted))
  /\ kwargs_get (struct_fields doc) "other" = Some VNone.
Proof.
  intros E.
  destruct (format_citation citation type jurisdiction) as [formatted|e] eqn:Ec.
  - erewrite make_doc_outcome in E by exact Ec.
    destruct (length (filter is_word (clean_text text)) <? 9)%nat eqn:El;
      [discriminate E|].
    apply Nat.ltb_ge in El. injection E as <- <-.
    repeat split; try reflexivity; [exact El|].
    exists formatted. now split.
  - unfold make_doc in E. rewrite Ec in E. discriminate E.
Qed.


(** X14.  Whatever [make_section] returns is [None], for a text of fewer
    than nine word characters, with the one warning of that: no call returns
    a section. *)
Theorem make_section_returns_none
    (now version_id jurisdiction type number title citation url text : pystr)
    (section : option struct) (warnings : list pystr) :
  make_section now version_id jurisdiction type number title citation url text
  = Ok (section, warnings) ->
  section = None
  /\ warnings = [short_text_warning url (clean_text text)]
  /\ (length (filter is_word (clean_text text)) < 9)%nat.
Proof.
  intros E.
  destruct (format_citation citation type jurisdiction) as [formatted|e] eqn:Ec.
  - erewrite make_section_outcome in E by exact Ec.
    destruct (length (filter is_word (clean_text text)) <? 9)%nat eqn:El;
      [|discriminate E].
    apply Nat.ltb_lt in El. injection E as <- <-. now repeat split.
  - unfold make_section in E. rewrite Ec in E. discriminate E.
Qed.
End DocumentOutcomes.

Lemma make_doc_document_witness :
  exists doc,
    @make_doc example_runtime (lit "2024-01-01") (lit "v1") (lit "decision")
      (lit "queensland") (lit "src") (lit "text/html") VNone (lit "R  v X")
      (lit "u") (lit "The  judgment.")
    = Ok (Some doc, [])
    /\ kwargs_get (struct_fields doc) "text" = Some (VStr (lit "The  judgment."))
    /\ kwargs_get (struct_fields doc) "citation" = Some (VStr (lit "R v X")).
Proof.
  eexists. split; [reflexivity|].
  destruct (@make_doc_document example_runtime (lit "2024-01-01") (lit "v1")
              (lit "decision") (lit "queensland") (lit "src") (lit "text/html")
              VNone (lit "R  v X") (lit "u") (lit "The  judgment.") _ []
              eq_refl)
    as (_ & Ht & _ & _ & _).
  split; [exact Ht|reflexivity].
Defined.


Lemma make_section_returns_none_witness :
  @make_section example_runtime (lit "2024-01-01") (lit "v1") (lit "queensland")
    (lit "primary_legislation") (lit "1") (lit "Short title") (lit "An Act")
    (lit "u") (lit "s 1")
  = Ok (None, [short_text_warning (lit "u") (lit "s 1")])
  /\ (length (filter (@is_word example_runtime) (lit "s 1")) < 9)%nat.
Proof.
  split; [reflexivity|].
  destruct (@make_section_returns_none example_runtime (lit "2024-01-01")
              (lit "v1") (lit "queensland") (lit "primary_legislation") (lit "1")
              (lit "Short title") (lit "An Act") (lit "u") (lit "s 1") None _
              eq_refl)
    as (_ & _ & Hl).
  exact Hl.
Defined.

(** ** The jurisdiction ids of the converter *)

Lemma jurisdiction_normalise_Returned (x id : pystr) :
  jurisdiction_normalise x = Returned id -> In (x, id) jurisdiction_ids.
Proof.
  unfold jurisdiction_normalise.
  destruct (dict_get jurisdiction_ids x) as [v|] eqn:E; [|discriminate].
  intros [= <-]. now apply dict_get_Some_In.
Qed.

(** X15.  Of the ten jurisdictions for which the creator formats citations,
    [jurisdiction_normalise] raises a [KeyError] for exactly two, the
    Northern Territory and the Australian Capital Territory. *)
Theorem jurisdiction_normalise_creator_jurisdictions (jurisdiction a : pystr) :
  dict_get JURISDICTIONS jurisdiction = Some a ->
  (jurisdiction_normalise jurisdiction = Raised (KeyError jurisdiction)
   <-> jurisdiction = lit "northern_territory"
       \/ jurisdiction = lit "australian_capital_territory").
Proof.
  intros Hj. apply dict_get_Some_In in Hj. unfold JURISDICTIONS in Hj.
  repeat (destruct Hj as [Hj|Hj];
          [injection Hj as <- <-;
           split;
           [intros E;
            first [cbv in E; discriminate E|left; reflexivity|right; reflexivity]
           |intros [E|E];
            first [reflexivity|cbv in E; discriminate E]]|]).
  destruct Hj.
Qed.

Lemma jurisdiction_normalise_creator_jurisdictions_witness :
  dict_get JURISDICTIONS (lit "northern_territory") = Some (lit "NT")
  /\ jurisdiction_normalise (lit "northern_territory")
     = Raised (KeyError (lit "northern_territory")).
Proof.
  split; [reflexivity|].
  apply (@jurisdiction_normalise_creator_jurisdictions
           (lit "northern_territory") (lit "NT") eq_refl).
  left. reflexivity.
Defined.

(** X16.  Two jurisdictions to which [jurisdiction_normalise] gives the same
    id are the same jurisdiction, or South Australia and Western Australia,
    which share the id J0105. *)
Theorem jurisdiction_normalise_same_id (x y id : pystr) :
  jurisdiction_normalise x = Returned id ->
  jurisdiction_normalise y = Returned id ->
  x = y
  \/ (x = lit "south_australia" /\ y = lit "western_australia")
  \/ (x = lit "western_australia" /\ y = lit "south_australia").
Proof.
  intros Hx Hy.
  apply jurisdiction_normalise_Returned in Hx, Hy.
  unfold jurisdiction_ids in Hx, Hy.
  repeat (destruct Hx as [Hx|Hx]; [injection Hx as <- <-|]); [..|destruct Hx];
    repeat (destruct Hy as [Hy|Hy];
            [first [cbv in Hy; discriminate Hy
                   |injection Hy as <-;
                    first [left; reflexivity
                          |right; left; split; reflexivity
                          |right; right; split; reflexivity]]|]);
    destruct Hy.
Qed.

Lemma jurisdiction_normalise_same_id_witness :
  jurisdiction_normalise (lit "south_australia") = Returned (lit "J0105")
  /\ jurisdiction_normalise (lit "western_australia") = Returned (lit "J0105")
  /\ lit "south_australia" <> lit "western_australia".
Proof.
  split; [reflexivity|]. split; [reflexivity|].
  destruct (@jurisdiction_normalise_same_id (lit "south_australia")
              (lit "western_australia") (lit "J0105") eq_refl eq_refl)
    as [E|[[_ _]|[E _]]]; cbv; intros E'; discriminate E'.
Defined.

(** ** What the converter writes *)

Section ConverterFacts.
Variables row document_record document_text : Type.
Variable row_type : row -> pystr.
Variable process : row -> outcome (document_record * document_text).

Lemma main_loop_written : forall rows text_batch out out' text_batch' raised,
  main_loop row_type process rows text_batch out = (out', text_batch', raised) ->
  full_batches (batch_files out) ->
  (Z.of_nat (length text_batch) < 10000)%Z ->
  full_batches (batch_files out')
  /\ (Z.of_nat (length text_batch') < 10000)%Z
  /\ exists results,
       document_file out' = document_file out ++ map fst results
       /\ concat (batch_files out') ++ text_batch'
          = concat (batch_files out) ++ text_batch ++ map snd results
       /\ match raised with
          | None => map process (non_bill_rows row_type rows) = map Returned results
          | Some e =>
              exists pre r post,
                non_bill_rows row_type rows = pre ++ r :: post
                /\ map process pre = map Returned results
                /\ process r = Raised e
          end.
Proof.
  induction rows as [|r rows IH]; intros text_batch out out' text_batch' raised E Hf Hl.
  - injection E as <- <- <-. split; [exact Hf|]. split; [exact Hl|].
    exists []. cbn [map]. now rewrite !app_nil_r.
  - cbn [main_loop] in E. unfold non_bill_rows. cbn [filter].
    fold (non_bill_rows row_type rows).
    destruct (pystr_eqb (row_type r) (lit "bill")); cbn [negb].
    + now apply IH.
    + destruct (process r) as [[doc text]|e] eqn:Ep.
      * assert (forall results : list (document_record * document_text),
                  match raised with
                  | None =>
                      map process (non_bill_rows row_type rows) = map Returned results
                  | Some e =>
                      exists pre r0 post,
                        non_bill_rows row_type rows = pre ++ r0 :: post
                        /\ map process pre = map Returned results
                        /\ process r0 = Raised e
                  end ->
                  match raised with
                  | None =>
                      map process (r :: non_bill_rows row_type rows)
                      = map Returned ((doc, text) :: results)
                  | Some e =>
                      exists pre r0 post,
                        r :: non_bill_rows row_type rows = pre ++ r0 :: post
                        /\ map process pre = map Returned ((doc, text) :: results)
                        /\ process r0 = Raised e
                  end) as Hnext.
        { intros results Hr. destruct raised as [e|].
          - destruct Hr as (pre & r0 & post & Hk & Hp & He).
            exists (r :: pre), r0, post. cbn [map app]. now rewrite Hk, Hp, Ep.
          - cbn [map]. now rewrite Hr, Ep. }
        cbn [document_file batch_files] in E.
        destruct (Z.of_nat (length (text_batch ++ [text])) =? 10000)%Z eqn:Efull.
        -- apply Z.eqb_eq in Efull.
           apply IH in E; cbn [document_file batch_files length].
           ++ destruct E as (Hf' & Hl' & results & Hd & Hc & Hr).
              cbn [document_file batch_files] in Hd, Hc.
              split; [exact Hf'|]. split; [exact Hl'|].
              exists ((doc, text) :: results). cbn [map fst snd].
              split; [now rewrite Hd, <- app_assoc|].
              split; [|now apply Hnext].
              rewrite Hc, concat_app. cbn [concat app].
              now rewrite app_nil_r, <- !app_assoc.
           ++ apply Forall_app. split; [exact Hf|]. now constructor.
           ++ lia.
        -- apply Z.eqb_neq in Efull.
           apply IH in E; cbn [document_file batch_files].
           ++ destruct E as (Hf' & Hl' & results & Hd & Hc & Hr).
              cbn [document_file batch_files] in Hd, Hc.
              split; [exact Hf'|]. split; [exact Hl'|].
              exists ((doc, text) :: results). cbn [map fst snd].
              split; [now rewrite Hd, <- app_assoc|].
              split; [|now apply Hnext].
              now rewrite Hc, <- !app_assoc.
           ++ exact Hf.
           ++ rewrite length_app in Efull |- *. cbn [length] in Efull |- *. lia.
      * injection E as <- <- <-. split; [exact Hf|]. split; [exact Hl|].
        exists []. cbn [map]. rewrite !app_nil_r.
        split; [reflexivity|]. split; [reflexivity|].
        exists [], r, (non_bill_rows row_type rows). now repeat split.
Qed.

(** X17.  When [main] ends without an exception, every row but the bills
    has been processed, in order; the file of records holds their records,
    and the batch files hold their texts, in order, each file with exactly
    10000 texts but the last, which has fewer and may be empty. *)
Theorem main_writes_batches (rows : list row)
    (out : written document_record document_text) :
  main row_type process rows = (out, None) ->
  exists results full last_batch,
    map process (non_bill_rows row_type rows) = map Returned results
    /\ document_file out = map fst results
    /\ batch_files out = full ++ [last_batch]
    /\ concat (full ++ [last_batch]) = map snd results
    /\ full_batches full
    /\ (Z.of_nat (length last_batch) < 10000)%Z.
Proof.
  unfold main.
  destruct (main_loop row_type process rows []
              {| document_file := []; batch_files := [] |})
    as [[out' text_batch] [e|]] eqn:E; [discriminate|].
  intros [= <-]. apply main_loop_written in E; [|constructor|cbn; lia].
  destruct E as (Hf & Hl & results & Hd & Hc & Hr).
  exists results, (batch_files out'), text_batch. cbn [document_file batch_files] in *.
  repeat split; try assumption.
  rewrite concat_app. cbn [concat]. now rewrite app_nil_r.
Qed.

(** X18.  When [process] raises for a row, [main] ends with that exception;
    the records of the rows before it have been written, but of their texts
    only full batches of 10000: the texts of the batch being filled, fewer
    than 10000, are in no file. *)
Theorem main_raises (rows : list row)
    (out : written document_record document_text) (e : raised) :
  main row_type process rows = (out, Some e) ->
  exists pre r post results lost,
    non_bill_rows row_type rows = pre ++ r :: post
    /\ map process pre = map Returned results
    /\ process r = Raised e
    /\ document_file out = map fst results
    /\ concat (batch_files out) ++ lost = map snd results
    /\ full_batches (batch_files out)
    /\ (Z.of_nat (length lost) < 10000)%Z.
Proof.
  unfold main.
  destruct (main_loop row_type process rows []
              {| document_file := []; batch_files := [] |})
    as [[out' text_batch] [e'|]] eqn:E; [|discriminate].
  intros [= <- <-]. apply main_loop_written in E; [|constructor|cbn; lia].
  destruct E as (Hf & Hl & results & Hd & Hc & pre & r & post & Hk & Hp & He).
  exists pre, r, post, results, text_batch. cbn [document_file batch_files] in *.
  now repeat split.
Qed.
End ConverterFacts.

Lemma main_writes_batches_witness :
  let rows := [(lit "decision", 1%nat); (lit "bill", 2%nat);
               (lit "primary_legislation", 3%nat)] in
  main example_row_type example_process rows
  = ({| document_file := [1%nat; 3%nat]; batch_files := [[10%nat; 30%nat]] |}, None)
  /\ exists results full last_batch,
       map example_process (non_bill_rows example_row_type rows)
       = map Returned results
       /\ [1%nat; 3%nat] = map fst results
       /\ [[10%nat; 30%nat]] = full ++ [last_batch]
       /\ concat (full ++ [last_batch]) = map snd results
       /\ full_batches full
       /\ (Z.of_nat (length last_batch) < 10000)%Z.
Proof.
  intros rows. split; [reflexivity|].
  exact (@main_writes_batches _ _ _ example_row_type example_process rows
           {| document_file := [1%nat; 3%nat]; batch_files := [[10%nat; 30%nat]] |}
           eq_refl).
Defined.

Lemma main_raises_witness :
  let rows := [(lit "decision", 1%nat); (lit "bill", 2%nat);
               (lit "decision", 7%nat); (lit "primary_legislation", 3%nat)] in
  main example_row_type example_process rows
  = ({| document_file := [1%nat]; batch_files := [] |},
     Some (KeyError (lit "northern_territory")))
  /\ exists pre r post results lost,
       non_bill_rows example_row_type rows = pre ++ r :: post
       /\ map example_process pre = map Returned results
       /\ example_process r = Raised (KeyError (lit "northern_territory"))
       /\ [1%nat] = map fst results
       /\ concat [] ++ lost = map snd results
       /\ full_batches (@nil (list nat))
       /\ (Z.of_nat (length lost) < 10000)%Z.
Proof.
  intros rows. split; [reflexivity|].
  exact (@main_raises _ _ _ example_row_type example_process rows
           {| document_file := [1%nat]; batch_files := [] |}
           (KeyError (lit "northern_territory")) eq_refl).
Defined.

(** ** get_index of the Queensland scraper *)

Lemma search_from_first_absent (c : N) (r : regex) : forall s before,
  ~ In c s -> search_from (One (N.eqb c) :: r) before s = false.
Proof.
  induction s as [|d s IH]; intros before Hs; [reflexivity|].
  cbn [search_from match_here].
  destruct (c =? d) eqn:E.
  - apply N.eqb_eq in E. subst d. exfalso. apply Hs. now left.
  - apply IH. intros Hin. apply Hs. now right.
Qed.

Lemma search_from_step (r : regex) (before s : pystr) (c : N) :
  match_here r false before (c :: s) = None ->
  search_from r before (c :: s) = search_from r (c :: before) s.
Proof. intros E. cbn [search_from]. now rewrite E. Qed.

Lemma digits_no_h (page : pystr) :
  forallb ascii_isdigit page = true -> ~ In 104 page.
Proof.
  intros Hd Hin. rewrite forallb_forall in Hd. specialize (Hd _ Hin).
  discriminate Hd.
Qed.

Lemma index_page_not_found (page : pystr) :
  forallb ascii_isdigit page = true ->
  re_search_found index_page_with_w
    (lit "https://www.queenslandjudgments.com.au/caselaw?page=" ++ page) = false
  /\ re_search_found index_page_without_w
       (lit "https://www.queenslandjudgments.com.au/caselaw?page=" ++ page) = false.
Proof.
  intros Hd. apply digits_no_h in Hd. unfold re_search_found.
  split.
  - change index_page_with_w
      with (One (N.eqb 104) :: tl index_page_with_w).
    set (url := lit "https://www.queenslandjudgments.com.au/caselaw?page=").
    cbv in url. subst url. cbn [app].
    repeat (rewrite search_from_step by reflexivity).
    now apply search_from_first_absent.
  - change index_page_without_w
      with (One (N.eqb 104) :: tl index_page_without_w).
    set (url := lit "https://www.queenslandjudgments.com.au/caselaw?page=").
    cbv in url. subst url. cbn [app].
    repeat (rewrite search_from_step by reflexivity).
    now apply search_from_first_absent.
Qed.

(** X19.  For an index page of the site, with the path
    [https://www.queenslandjudgments.com.au/caselaw?page=] and a page number
    in digits, [get_index] returns no entries: its pattern does not match the
    path, whose [?] the pattern takes for a quantifier, [re.search] gives
    [None], and the call raises an [AttributeError], of which [log] prints
    the one warning. *)
Theorem get_index_index_page (error_message : string -> raised -> Request -> pystr)
    (A : Type) (rest_of_get_index : pystr -> Request -> outcome A)
    (req : Request) (page : pystr) :
  forallb ascii_isdigit page = true ->
  path req = lit "https://www.queenslandjudgments.com.au/caselaw?page=" ++ page ->
  let e := AttributeError (lit "'NoneType' object has no attribute 'group'") in
  get_index error_message rest_of_get_index req
  = (Raised e, [error_message "get_index"%string e req]).
Proof.
  intros Hd Hp e. unfold get_index, log, search_group_1. rewrite Hp.
  destruct (index_page_not_found page Hd) as [-> ->].
  reflexivity.
Qed.

Lemma get_index_index_page_witness :
  let req := Request_init (lit "https://www.queenslandjudgments.com.au/caselaw?page=685")
               (lit "get") (plain []) (plain []) (lit "utf-8") false in
  let e := AttributeError (lit "'NoneType' object has no attribute 'group'") in
  forallb ascii_isdigit (lit "685") = true
  /\ get_index (fun _ _ _ => lit "get_index failed") (fun table _ => Returned table) req
     = (Raised e, [lit "get_index failed"]).
Proof.
  intros req e. split; [reflexivity|].
  exact (@get_index_index_page (fun _ _ _ => lit "get_index failed") pystr
           (fun table _ => Returned table) req (lit "685") eq_refl eq_refl).
Defined.
